(** * statbot: the crawler pipeline and the message-history interval set

    A shallow embedding of [statbot/message_history.py] and
    [statbot/crawler.py].  Python integers are [Z]; a value that may be
    [None] is an [option]; a coroutine that may raise is a function
    returning a [result] together with the state it leaves behind, since a
    Python exception does not undo the mutations made before it. *)

From Stdlib Require Import ZArith List Bool Lia.
From stdpp Require Import base option list gmap.
Import ListNotations.
Local Open Scope Z_scope.

(** ** Python exceptions and results *)

Inductive exn : Type :=
| ValueError      (* max() of an empty sequence, task_done() called too often *)
| TypeError       (* None where a number is needed, missing argument *)
| AttributeError  (* an attribute of None *)
| RemoteError     (* a failure of the Discord client *)
| StoreError.     (* a failure of the database *)

Inductive result (A : Type) : Type :=
| Ok (a : A)
| Raise (e : exn).
Arguments Ok {A} a.
Arguments Raise {A} e.

Definition is_ok {A} (r : result A) : bool :=
  match r with Ok _ => true | Raise _ => false end.

(** ** [statbot/message_history.py] *)

Module Range.

(** Modelled from the spec: [range.py] (class [Range]) is not part of the
    sources at hand.  An interval is [[start, end]] over the ordinal key
    space; [min()] and [max()] are its minimum and its maximum. *)
Record t : Type := make { start : Z; end_ : Z }.

Definition min (r : t) : Z := Z.min (start r) (end_ r).
Definition max (r : t) : Z := Z.max (start r) (end_ r).

End Range.

Module MessageHistory.

(** [MessageHistory(ranges..., first=None)]: the list [self.ranges] kept by
    the [MultiRange] base class, and the slot [first]. *)
Record t : Type := make { ranges : list Range.t; first : option Z }.

(** The [for] loop of [find_first_hole] over an already reversed list:
    [break] when [start > range.max()], else [current = range.min()]. *)
Fixpoint walk (start : Z) (rs : list Range.t) (current : Z) : Z :=
  match rs with
  | [] => current
  | r :: rs' =>
      if start >? Range.max r then current
      else walk start rs' (Range.min r)
  end.

(** The value of [current] when the loop is left. *)
Definition boundary (h : t) (start : Z) : Z :=
  walk start (rev (ranges h)) start.

(** [if self.first is None or self.first < current:
       return min(start, current)
     else: return None] *)
Definition find_first_hole (h : t) (start : Z) : option Z :=
  let current := boundary h start in
  let test := match first h with
              | None => true
              | Some f => f <? current
              end in
  if test then Some (Z.min start current) else None.

(** [to_ranges]: the two parallel lists of starts and ends. *)
Definition to_ranges (h : t) : list Z * list Z :=
  (map Range.start (ranges h), map Range.end_ (ranges h)).

End MessageHistory.

(** ** Effects: a state monad with exceptions

    A computation over a state [W] returns a value or raises, and in both
    cases leaves a state: what was mutated before a [raise] stays mutated. *)

Definition M (W A : Type) : Type := W -> result A * W.

Definition ret {W A} (a : A) : M W A := fun w => (Ok a, w).

Definition raise {W A} (e : exn) : M W A := fun w => (Raise e, w).

Definition bind {W A B} (m : M W A) (k : A -> M W B) : M W B :=
  fun w =>
    match m w with
    | (Ok a, w') => k a w'
    | (Raise e, w') => (Raise e, w')
    end.

Notation "x <- m ;; k" := (bind m (fun x => k))
  (at level 100, m at next level, right associativity).

(** [for x in l: s = body(s, x)], leaving at the first exception. *)
Fixpoint for_each {W A S} (body : S -> A -> M W S) (l : list A) (s : S)
  : M W S :=
  match l with
  | [] => ret s
  | x :: l' => s' <- body s x ;; for_each body l' s'
  end.

(** ** [asyncio.Queue]

    The parts of the standard library's queue that the crawler uses:
    [put], [get], [task_done] and the counter of unfinished tasks. *)

Module Queue.

Record t (A : Type) : Type :=
  make { maxsize : Z; items : list A; unfinished_tasks : Z }.
Arguments make {A} _ _ _.
Arguments maxsize {A} _.
Arguments items {A} _.
Arguments unfinished_tasks {A} _.

Definition create {A} (maxsize : Z) : t A := make maxsize [] 0.

Definition qsize {A} (q : t A) : Z := Z.of_nat (length (items q)).

(** [full()]: never when [maxsize <= 0]. *)
Definition full {A} (q : t A) : bool :=
  if maxsize q <=? 0 then false else maxsize q <=? qsize q.

(** [await put(item)], once there is room: the item goes to the back and
    the counter of unfinished tasks is incremented.  While the queue is
    full the caller is suspended; that delays the effect and does not
    change it. *)
Definition put {A} (item : A) (q : t A) : t A :=
  make (maxsize q) (items q ++ [item]) (unfinished_tasks q + 1).

(** [await get()]: the front item; [None] when the queue is empty and the
    caller stays suspended. *)
Definition get {A} (q : t A) : option (A * t A) :=
  match items q with
  | [] => None
  | x :: rest => Some (x, make (maxsize q) rest (unfinished_tasks q))
  end.

(** [task_done()]: [ValueError] when called more often than items were
    put. *)
Definition task_done {A} (q : t A) : result (t A) :=
  if unfinished_tasks q <=? 0 then Raise ValueError
  else Ok (make (maxsize q) (items q) (unfinished_tasks q - 1)).

End Queue.

(** ** Python dictionaries, in insertion order

    [self.progress] is a [dict]; [tuple(self.progress.items())] lists it in
    insertion order, and assigning to a key that is present keeps the key
    where it is. Keys are compared by the [__eq__] of the key objects. *)

Module Dict.

Section Dict.
Context {K V : Type} (eqb : K -> K -> bool).

Fixpoint get (k : K) (d : list (K * V)) : option V :=
  match d with
  | [] => None
  | (k', v) :: d' => if eqb k' k then Some v else get k d'
  end.

(** [k in d] *)
Definition contains (k : K) (d : list (K * V)) : bool :=
  match get k d with Some _ => true | None => false end.

(** [d[k] = v] *)
Fixpoint set (k : K) (v : V) (d : list (K * V)) : list (K * V) :=
  match d with
  | [] => [(k, v)]
  | (k', v') :: d' =>
      if eqb k' k then (k', v) :: d' else (k', v') :: set k v d'
  end.

(** [d.pop(k, None)] *)
Fixpoint pop (k : K) (d : list (K * V)) : list (K * V) :=
  match d with
  | [] => []
  | (k', v') :: d' => if eqb k' k then d' else (k', v') :: pop k d'
  end.

End Dict.

End Dict.

(** ** The objects of the Discord client the crawlers touch *)

(** A text channel: its ID, the ID of its guild, and what
    [channel.permissions_for(channel.guild.me).read_message_history] is. *)
Record Channel : Type := {
  channel_id : Z;
  channel_guild : Z;
  read_message_history : bool
}.

Record Guild : Type := {
  guild_id : Z;
  text_channels : list Channel
}.

Record Reaction : Type := {
  reaction_message : Z;
  reaction_emoji : Z
}.

Record Message : Type := {
  message_id : Z;
  message_reactions : list Reaction
}.

Record AuditLogEntry : Type := {
  entry_id : Z;
  entry_guild : Z
}.

(** discord.py compares and hashes its objects by ID
    ([EqualityComparable.__eq__] is
    [isinstance(other, self.__class__) and other.id == self.id]). *)
Definition channel_eqb (a b : Channel) : bool := channel_id a =? channel_id b.
Definition guild_eqb (a b : Guild) : bool := guild_id a =? guild_id b.

(** So a channel is never equal to an [int], whatever the two IDs are:
    [isinstance(i, TextChannel)] is false. *)
Definition channel_eqb_int (c : Channel) (i : Z) : bool := false.

(** [discord.utils.snowflake_time(id)]: the creation time in an ID, here in
    milliseconds since the Unix epoch; [id >> 22] on [None] is a
    [TypeError]. *)
Definition DISCORD_EPOCH : Z := 1420070400000.

Definition snowflake_time (id : option Z) : result Z :=
  match id with
  | None => Raise TypeError
  | Some i => Ok (Z.shiftr i 22 + DISCORD_EPOCH)
  end.

(** The calls into the Discord client, over a state [R] of the remote
    service that this program neither owns nor sees: each may raise. *)
Class Discord (R : Type) : Type := {
  (** [await channel.history(after=last, limit=limit).flatten()] *)
  channel_history : Channel -> Z -> Z -> R -> result (list Message) * R;
  (** [await reaction.users().flatten()] *)
  reaction_users : Reaction -> R -> result (list Z) * R;
  (** [await guild.audit_logs(after=last, limit=limit).flatten()] *)
  guild_audit_logs : Guild -> Z -> Z -> R -> result (list AuditLogEntry) * R;
  (** [client.get_guild(id)], [None] for a guild the client does not know *)
  get_guild : Z -> R -> option Guild
}.

(** ** The store *)

Module Sql.

(** Modelled from the spec: [sql.py] (the store handler and its transaction
    scope) is not part of the sources at hand.  From the spec, section 6:
    [begin_transaction()] gives a scoped transaction handle;
    [lookup_cursor(tx, source)], [insert_cursor(tx, source, cursor)],
    [update_cursor(tx, source, cursor)], [delete_cursor(tx, source)],
    [insert_event(tx, event)] (idempotent) and the upserts all work through
    the handle; and from section 4.2, a transaction left by an error is
    abandoned and must not partially commit.  Below, a statement is one
    such call, a handle is the list of statements executed through it, and
    the tables change only when the scope is left without an error. *)
Inductive Stmt : Type :=
| InsertChannelCrawl (channel : Z) (last_id : Z)
| UpdateChannelCrawl (channel : Z) (last_id : Z)
| DeleteChannelCrawl (channel : Z)
| InsertAuditLogCrawl (guild : Z) (last_id : Z)
| UpdateAuditLogCrawl (guild : Z) (last_id : Z)
| InsertMessage (m : Message)
| UpsertEmoji (emoji : Z)
| InsertReaction (r : Reaction) (users : list Z)
| InsertAuditLogEntry (e : AuditLogEntry).

(** The tables, and [rejects]: the statements on which the database raises
    (a constraint, a lost connection), which this program does not
    control. *)
Record Store : Type := {
  channel_crawl : gmap Z Z;
  audit_log_crawl : gmap Z Z;
  messages : gmap Z Message;
  emojis : gset Z;
  reactions : list (Reaction * list Z);
  audit_log : gmap Z AuditLogEntry;
  rejects : Stmt -> bool
}.

Definition Trans : Type := list Stmt.

(** [sql.transaction()]: a handle with nothing executed through it yet. *)
Definition transaction : Trans := [].

(** The effect of one committed statement on the tables. *)
Definition apply (s : Store) (stmt : Stmt) : Store :=
  match stmt with
  | InsertChannelCrawl c v =>
      {| channel_crawl := <[c := v]> (channel_crawl s);
         audit_log_crawl := audit_log_crawl s; messages := messages s;
         emojis := emojis s; reactions := reactions s;
         audit_log := audit_log s; rejects := rejects s |}
  | UpdateChannelCrawl c v =>
      {| channel_crawl := alter (fun _ => v) c (channel_crawl s);
         audit_log_crawl := audit_log_crawl s; messages := messages s;
         emojis := emojis s; reactions := reactions s;
         audit_log := audit_log s; rejects := rejects s |}
  | DeleteChannelCrawl c =>
      {| channel_crawl := delete c (channel_crawl s);
         audit_log_crawl := audit_log_crawl s; messages := messages s;
         emojis := emojis s; reactions := reactions s;
         audit_log := audit_log s; rejects := rejects s |}
  | InsertAuditLogCrawl g v =>
      {| channel_crawl := channel_crawl s;
         audit_log_crawl := <[g := v]> (audit_log_crawl s);
         messages := messages s;
         emojis := emojis s; reactions := reactions s;
         audit_log := audit_log s; rejects := rejects s |}
  | UpdateAuditLogCrawl g v =>
      {| channel_crawl := channel_crawl s;
         audit_log_crawl := alter (fun _ => v) g (audit_log_crawl s);
         messages := messages s;
         emojis := emojis s; reactions := reactions s;
         audit_log := audit_log s; rejects := rejects s |}
  | InsertMessage m =>
      {| channel_crawl := channel_crawl s;
         audit_log_crawl := audit_log_crawl s;
         messages := <[message_id m := m]> (messages s);
         emojis := emojis s; reactions := reactions s;
         audit_log := audit_log s; rejects := rejects s |}
  | UpsertEmoji e =>
      {| channel_crawl := channel_crawl s;
         audit_log_crawl := audit_log_crawl s; messages := messages s;
         emojis := {[ e ]} ∪ emojis s; reactions := reactions s;
         audit_log := audit_log s; rejects := rejects s |}
  | InsertReaction r users =>
      {| channel_crawl := channel_crawl s;
         audit_log_crawl := audit_log_crawl s; messages := messages s;
         emojis := emojis s; reactions := reactions s ++ [(r, users)];
         audit_log := audit_log s; rejects := rejects s |}
  | InsertAuditLogEntry e =>
      {| channel_crawl := channel_crawl s;
         audit_log_crawl := audit_log_crawl s; messages := messages s;
         emojis := emojis s; reactions := reactions s;
         audit_log := <[entry_id e := e]> (audit_log s);
         rejects := rejects s |}
  end.

(** Leaving the scope without an error commits what was executed through
    the handle, in order. *)
Definition commit (trans : Trans) (s : Store) : Store :=
  fold_left apply trans s.

(** Executing a statement through a handle: the database raises, or the
    statement joins the transaction. *)
Definition execute (stmt : Stmt) (trans : Trans) (s : Store) : result Trans :=
  if rejects s stmt then Raise StoreError else Ok (trans ++ [stmt]).

End Sql.

(** ** Logging *)

(** The messages of the logger calls, by format string; the numbers are the
    IDs the message prints. *)
Inductive LogMsg : Type :=
| ErrorReadingEvents            (* "Error reading events from source ..." *)
| AllSourcesExhausted           (* "... all sources are exhausted, sleeping for a while..." *)
| GotGroupOfEvents              (* "... got group of events from queue" *)
| ErrorDuringEventWrite         (* "... error during event write" *)
| ReadingThroughChannel (channel : Z)
| ReadingThroughAuditLogs (guild : Z)
| StartingFromID (last_id : option Z)
| QueuedMessages (n : nat)
| NoMessagesFound
| QueuedAuditLogEntries (n : nat)
| NoAuditLogEntriesFound
| AddingChannel (channel : Z)   (* "Adding #... to tracked channels" *)
| RemovingChannel (channel : Z) (* "Removing #... from tracked channels" *)
| UpdatingAdding (channel : Z)  (* "Updating #... - adding to list" *)
| UpdatingRemoving (channel : Z). (* "Updating #... - removing from list" *)

(** ** The world outside the crawler object *)

Record World (R : Type) : Type := {
  store : Sql.Store;
  remote : R;
  log : list LogMsg
}.
Arguments store {R} _.
Arguments remote {R} _.
Arguments log {R} _.

Section World.
Context {R : Type}.

Definition set_store (s : Sql.Store) (w : World R) : World R :=
  {| store := s; remote := remote w; log := log w |}.

(** [self.logger.info(...)] and [self.logger.error(...)] *)
Definition logger (msg : LogMsg) : M (World R) unit :=
  fun w => (Ok tt, {| store := store w; remote := remote w;
                       log := log w ++ [msg] |}).

(** A call into the Discord client. *)
Definition await {A} (call : R -> result A * R) : M (World R) A :=
  fun w =>
    let (r, remote') := call (remote w) in
    (r, {| store := store w; remote := remote'; log := log w |}).

(** [self.client.get_guild(id)] *)
Definition client_get_guild `{Discord R} (id : Z) : M (World R) (option Guild) :=
  fun w => (Ok (get_guild id (remote w)), w).

(** A pure computation that may raise. *)
Definition lift_result {W A} (r : result A) : M W A := fun w => (r, w).

(** A store call through a transaction handle. *)
Definition sql_execute (stmt : Sql.Stmt) (trans : Sql.Trans)
  : M (World R) Sql.Trans :=
  fun w => (Sql.execute stmt trans (store w), w).

(** [with self.sql.transaction() as trans: body]: commit when the body
    ends, nothing when it raises; the exception goes on to the caller.  The
    body hands back what it computed and the handle as it has become. *)
Definition with_transaction {A} (body : Sql.Trans -> M (World R) (A * Sql.Trans))
  : M (World R) A :=
  fun w =>
    match body Sql.transaction w with
    | (Ok (a, trans), w') =>
        (Ok a, set_store (Sql.commit trans (store w')) w')
    | (Raise e, w') => (Raise e, w')
    end.

(** A lookup through a handle sees the tables as the transaction has made
    them so far. *)
Definition lookup_channel_crawl (trans : Sql.Trans) (channel : Channel)
  : M (World R) (option Z) :=
  fun w =>
    (Ok (Sql.channel_crawl (Sql.commit trans (store w)) !! channel_id channel),
     w).

Definition lookup_audit_log_crawl (trans : Sql.Trans) (guild : Guild)
  : M (World R) (option Z) :=
  fun w =>
    (Ok (Sql.audit_log_crawl (Sql.commit trans (store w)) !! guild_id guild),
     w).

Definition insert_channel_crawl trans (channel : Channel) (last_id : Z) :=
  sql_execute (Sql.InsertChannelCrawl (channel_id channel) last_id) trans.
Definition update_channel_crawl trans (channel : Channel) (last_id : Z) :=
  sql_execute (Sql.UpdateChannelCrawl (channel_id channel) last_id) trans.
Definition delete_channel_crawl trans (channel : Channel) :=
  sql_execute (Sql.DeleteChannelCrawl (channel_id channel)) trans.
Definition insert_audit_log_crawl trans (guild : Guild) (last_id : Z) :=
  sql_execute (Sql.InsertAuditLogCrawl (guild_id guild) last_id) trans.
Definition update_audit_log_crawl trans (guild : Guild) (last_id : Z) :=
  sql_execute (Sql.UpdateAuditLogCrawl (guild_id guild) last_id) trans.
Definition insert_message trans (message : Message) :=
  sql_execute (Sql.InsertMessage message) trans.
Definition upsert_emoji trans (emoji : Z) :=
  sql_execute (Sql.UpsertEmoji emoji) trans.
Definition insert_reaction trans (reaction : Reaction) (users : list Z) :=
  sql_execute (Sql.InsertReaction reaction users) trans.
Definition insert_audit_log_entry trans (entry : AuditLogEntry) :=
  sql_execute (Sql.InsertAuditLogEntry entry) trans.

End World.

(** ** [statbot/crawler.py]: [AbstractCrawler] *)

(** [self.config]: the options the crawlers read.  The two delays are
    handed to [asyncio.sleep] as they are. *)
Record Config : Type := {
  guilds : list Z;
  queue_size : Z;
  yield_delay : Z;
  empty_source_delay : Z;
  batch_size : Z
}.

(** The abstract methods a crawler class supplies, with the [id]
    attribute of its events and the [__eq__] of its sources.  A cursor
    handed to [read] comes from [self.progress] and may be [None]. *)
Class Hooks (Source Event R : Type) : Type := {
  source_eqb : Source -> Source -> bool;
  event_id : Event -> Z;
  read : Source -> option Z -> M (World R) (option (list Event));
  write : Sql.Trans -> list Event -> M (World R) Sql.Trans;
  update : Sql.Trans -> Source -> Z -> M (World R) Sql.Trans
}.

(** A work item: [(source, events, last_id)]. *)
Definition Item (Source Event : Type) : Type :=
  (Source * option (list Event) * Z)%type.

(** The slots [progress] and [queue] of a crawler object. *)
Record Crawler (Source Event : Type) : Type := {
  progress : list (Source * option Z);
  queue : Queue.t (Item Source Event)
}.
Arguments progress {Source Event} _.
Arguments queue {Source Event} _.

(** What the consumer calls while it handles one item. *)
Inductive Call (Source Event : Type) : Type :=
| CallTransaction
| CallWrite (events : list Event)
| CallUpdate (source : Source) (last_id : Z)
| CallCommit
| CallRollback
| CallTaskDone.
Arguments CallTransaction {Source Event}.
Arguments CallWrite {Source Event} events.
Arguments CallUpdate {Source Event} source last_id.
Arguments CallCommit {Source Event}.
Arguments CallRollback {Source Event}.
Arguments CallTaskDone {Source Event}.

Section AbstractCrawler.
Context {Source Event R : Type} `{Hooks Source Event R}.

(** [NOW_ID = discord.utils.time_snowflake(datetime.now())], evaluated once,
    when the module is imported. *)
Variable NOW_ID : Z.
Variable config : Config.

(** [__init__]: an empty progress mapping and a queue of [queue-size]. *)
Definition new_crawler : Crawler Source Event :=
  {| progress := []; queue := Queue.create (queue_size config) |}.

(** [get_last_id(objects)]: [max(map(lambda x: x.id, objects))];
    [max] of an empty sequence is a [ValueError]. *)
Definition get_last_id (objects : list Event) : result Z :=
  match map event_id objects with
  | [] => Raise ValueError
  | x :: xs => Ok (fold_left Z.max xs x)
  end.

(** The body of the producer's [for] loop for one pair of the snapshot:
    the [try] block and its [except Exception]. *)
Definition producer_step (pair : Source * option Z)
    (st : bool * Crawler Source Event * World R)
  : bool * Crawler Source Event * World R :=
  let '(done, c, w) := st in
  let (source, last_id) := pair in
  match read source last_id w with
  | (Ok None, w1) =>
      (true,
       {| progress := Dict.set source_eqb source (Some NOW_ID) (progress c);
          queue := Queue.put (source, None, NOW_ID) (queue c) |},
       w1)
  | (Ok (Some events), w1) =>
      match get_last_id events with
      | Ok last_id' =>
          (done,
           {| progress :=
                Dict.set source_eqb source (Some last_id') (progress c);
              queue := Queue.put (source, Some events, last_id') (queue c) |},
           w1)
      | Raise _ => (done, c, snd (logger ErrorReadingEvents w1))
      end
  | (Raise _, w1) => (done, c, snd (logger ErrorReadingEvents w1))
  end.

(** One turn of the producer's [while True]: [done = False], the [for]
    loop over [tuple(self.progress.items())], and the choice of the delay
    that is then slept. *)
Definition producer_round (c : Crawler Source Event) (w : World R)
  : Z * Crawler Source Event * World R :=
  let snapshot := progress c in
  let '(done, c1, w1) :=
    fold_left (fun st pair => producer_step pair st) snapshot (false, c, w) in
  if done : bool
  then (empty_source_delay config, c1, snd (logger AllSourcesExhausted w1))
  else (yield_delay config, c1, w1).

(** [n] turns of the producer loop, with the delays slept. *)
Fixpoint producer_rounds (n : nat) (c : Crawler Source Event) (w : World R)
  : list Z * Crawler Source Event * World R :=
  match n with
  | O => ([], c, w)
  | S n' =>
      let '(delay, c1, w1) := producer_round c w in
      let '(delays, c2, w2) := producer_rounds n' c1 w1 in
      (delay :: delays, c2, w2)
  end.

(** The body of the consumer's [with] statement. *)
Definition consumer_transaction (item : Item Source Event)
    (trans : Sql.Trans) : M (World R) Sql.Trans :=
  let '(source, events, last_id) := item in
  trans1 <- match events with
            | Some events => write trans events
            | None => ret trans
            end ;;
  update trans1 source last_id.

(** The consumer's [try] statement for one item: the calls it makes, the
    exception it catches if any, and the world it leaves. *)
Definition consumer_try (item : Item Source Event) (w : World R)
  : list (Call Source Event) * option exn * World R :=
  let '(source, events, last_id) := item in
  let trans := Sql.transaction in
  let '(called_write, (r1, w1)) :=
    match events with
    | Some events => ([CallWrite events], write trans events w)
    | None => ([], (Ok trans, w))
    end in
  match r1 with
  | Raise e =>
      ([CallTransaction] ++ called_write ++ [CallRollback], Some e,
       snd (logger ErrorDuringEventWrite w1))
  | Ok trans1 =>
      match update trans1 source last_id w1 with
      | (Raise e, w2) =>
          ([CallTransaction] ++ called_write
             ++ [CallUpdate source last_id; CallRollback], Some e,
           snd (logger ErrorDuringEventWrite w2))
      | (Ok trans2, w2) =>
          ([CallTransaction] ++ called_write
             ++ [CallUpdate source last_id; CallCommit], None,
           set_store (Sql.commit trans2 (store w2)) w2)
      end
  end.

(** What one turn of the consumer's [while True] comes to. *)
Inductive Consumed : Type :=
| Suspended     (* [await self.queue.get()] on an empty queue *)
| Handled (calls : list (Call Source Event)) (caught : option exn)
    (c : Crawler Source Event) (w : World R)
| Died (e : exn) (c : Crawler Source Event) (w : World R).

(** One turn of the consumer loop: [get], the log line, the [try]
    statement, and [task_done] after it. *)
Definition consumer_step (c : Crawler Source Event) (w : World R)
  : Consumed :=
  match Queue.get (queue c) with
  | None => Suspended
  | Some (item, q1) =>
      let w0 := snd (logger GotGroupOfEvents w) in
      let '(calls, caught, w1) := consumer_try item w0 in
      match Queue.task_done q1 with
      | Ok q2 =>
          Handled (calls ++ [CallTaskDone]) caught
            {| progress := progress c; queue := q2 |} w1
      | Raise e => Died e {| progress := progress c; queue := q1 |} w1
      end
  end.

(** [n] turns of the consumer loop, as far as it gets: it stops where it
    would wait for an item, and where an exception leaves the loop. *)
Fixpoint consumer_loop (n : nat) (c : Crawler Source Event) (w : World R)
  : Crawler Source Event * World R :=
  match n with
  | O => (c, w)
  | S n' =>
      match consumer_step c w with
      | Suspended => (c, w)
      | Handled _ _ c1 w1 => consumer_loop n' c1 w1
      | Died _ c1 w1 => (c1, w1)
      end
  end.

End AbstractCrawler.

(** ** [HistoryCrawler] *)

Module HistoryCrawler.

Section HistoryCrawler.
Context {R : Type} `{Discord R}.
Variable config : Config.

(** The progress mapping of a history crawler, and the state its
    topology hooks work on: the mapping and the world. *)
Definition Progress : Type := list (Channel * option Z).
Definition Tracked : Type := (Progress * World R)%type.

Definition in_world {A} (m : M (World R) A) : M Tracked A :=
  fun '(p, w) => let (r, w') := m w in (r, (p, w')).

Definition get_progress : M Tracked Progress :=
  fun '(p, w) => (Ok p, (p, w)).

Definition modify_progress (f : Progress -> Progress) : M Tracked unit :=
  fun '(p, w) => (Ok tt, (f p, w)).

(** [_channel_ok]: the guild is a configured one and the history of the
    channel may be read. *)
Definition _channel_ok (channel : Channel) : bool :=
  if existsb (Z.eqb (channel_guild channel)) (guilds config)
  then read_message_history channel
  else false.

(** One channel of the two loops of [init]: [lookup_channel_crawl],
    [insert_channel_crawl(trans, channel, 0)] when there is no record,
    and [self.progress[channel] = last_id or 0]. *)
Definition init_channel (acc : Progress * Sql.Trans) (channel : Channel)
  : M (World R) (Progress * Sql.Trans) :=
  let (progress, trans) := acc in
  if read_message_history channel then
    last_id <- lookup_channel_crawl trans channel ;;
    trans' <- match last_id with
              | None => insert_channel_crawl trans channel 0
              | Some _ => ret trans
              end ;;
    ret (Dict.set channel_eqb channel (Some (default 0 last_id)) progress,
         trans')
  else ret acc.

(** [guild.text_channels] where [get_guild] gave [None] is an
    [AttributeError]. *)
Definition init_guild (acc : Progress * Sql.Trans) (id : Z)
  : M (World R) (Progress * Sql.Trans) :=
  guild <- client_get_guild id ;;
  match guild with
  | None => raise AttributeError
  | Some guild => for_each init_channel (text_channels guild) acc
  end.

(** [init]: seeds the mapping inside one transaction.  When it raises, the
    producer ends with it, and the entries made so far are never read. *)
Definition init (progress : Progress) : M (World R) Progress :=
  with_transaction (fun trans => for_each init_guild (guilds config)
                                   (progress, trans)).

(** [read]: the page of messages after [last_id], or [None] when the page
    is empty. *)
Definition read (channel : Channel) (last_id : option Z)
  : M (World R) (option (list Message)) :=
  last <- lift_result (snowflake_time last_id) ;;
  _ <- logger (ReadingThroughChannel (channel_id channel)) ;;
  _ <- logger (StartingFromID last_id) ;;
  messages <- await (channel_history channel last (batch_size config)) ;;
  match messages with
  | _ :: _ =>
      _ <- logger (QueuedMessages (length messages)) ;;
      ret (Some messages)
  | [] =>
      _ <- logger NoMessagesFound ;;
      ret None
  end.

(** The inner loop of [write], over the reactions of a message. *)
Definition write_reaction (trans : Sql.Trans) (reaction : Reaction)
  : M (World R) Sql.Trans :=
  users <- await (reaction_users reaction) ;;
  trans1 <- upsert_emoji trans (reaction_emoji reaction) ;;
  insert_reaction trans1 reaction users.

Definition write_message (trans : Sql.Trans) (message : Message)
  : M (World R) Sql.Trans :=
  trans1 <- insert_message trans message ;;
  for_each write_reaction (message_reactions message) trans1.

Definition write (trans : Sql.Trans) (messages : list Message)
  : M (World R) Sql.Trans :=
  for_each write_message messages trans.

Definition update (trans : Sql.Trans) (channel : Channel) (last_id : Z)
  : M (World R) Sql.Trans :=
  update_channel_crawl trans channel last_id.

Definition hooks : Hooks Channel Message R :=
  Build_Hooks Channel Message R channel_eqb message_id read write update.

(** [_create_progress]: [self.progress[channel] = None], then a row with
    cursor 0 in a transaction of its own. *)
Definition _create_progress (channel : Channel) : M Tracked unit :=
  _ <- modify_progress (Dict.set channel_eqb channel None) ;;
  in_world (with_transaction (fun trans =>
    trans' <- insert_channel_crawl trans channel 0 ;; ret (tt, trans'))).

(** [_delete_progress]: [self.progress.pop(channel, None)], then the row is
    deleted. *)
Definition _delete_progress (channel : Channel) : M Tracked unit :=
  _ <- modify_progress (Dict.pop channel_eqb channel) ;;
  in_world (with_transaction (fun trans =>
    trans' <- delete_channel_crawl trans channel ;; ret (tt, trans'))).

Definition _channel_create_hook (channel : Channel) : M Tracked unit :=
  progress <- get_progress ;;
  if negb (_channel_ok channel) || Dict.contains channel_eqb channel progress
  then ret tt
  else
    _ <- in_world (logger (AddingChannel (channel_id channel))) ;;
    _create_progress channel.

Definition _channel_delete_hook (channel : Channel) : M Tracked unit :=
  _ <- in_world (logger (RemovingChannel (channel_id channel))) ;;
  _delete_progress channel.

(** [_channel_update_hook(before, after)].  The test
    [after.id in self.progress] looks an [int] up among channel keys. *)
Definition _channel_update_hook (before after : Channel) : M Tracked unit :=
  if negb (_channel_ok before) then ret tt
  else if _channel_ok after then
    progress <- get_progress ;;
    if existsb (fun kv => channel_eqb_int (fst kv) (channel_id after)) progress
    then ret tt
    else
      _ <- in_world (logger (UpdatingAdding (channel_id after))) ;;
      _create_progress after
  else
    _ <- in_world (logger (UpdatingRemoving (channel_id after))) ;;
    _delete_progress after.

End HistoryCrawler.

End HistoryCrawler.

(** ** [AuditLogCrawler] *)

Module AuditLogCrawler.

Section AuditLogCrawler.
Context {R : Type} `{Discord R}.
Variable config : Config.

(** [self.sql.insert_audit_log_entry(entry)], as [write] calls it: with the
    entry alone and no transaction handle.  What the store does with a call
    of that shape is left open here: it is given the entry and the world,
    and no handle. *)
Variable insert_audit_log_entry_1 : AuditLogEntry -> M (World R) unit.

Definition Progress : Type := list (Guild * option Z).

(** One guild of the loop of [init]; the store reads the ID of the guild
    it is given, an [AttributeError] where [get_guild] gave [None]. *)
Definition init_guild (acc : Progress * Sql.Trans) (id : Z)
  : M (World R) (Progress * Sql.Trans) :=
  let (progress, trans) := acc in
  guild <- client_get_guild id ;;
  match guild with
  | None => raise AttributeError
  | Some guild =>
      last_id <- lookup_audit_log_crawl trans guild ;;
      trans' <- match last_id with
                | None => insert_audit_log_crawl trans guild 0
                | Some _ => ret trans
                end ;;
      ret (Dict.set guild_eqb guild (Some (default 0 last_id)) progress,
           trans')
  end.

Definition init (progress : Progress) : M (World R) Progress :=
  with_transaction (fun trans => for_each init_guild (guilds config)
                                   (progress, trans)).

Definition read (guild : Guild) (last_id : option Z)
  : M (World R) (option (list AuditLogEntry)) :=
  last <- lift_result (snowflake_time last_id) ;;
  _ <- logger (ReadingThroughAuditLogs (guild_id guild)) ;;
  _ <- logger (StartingFromID last_id) ;;
  entries <- await (guild_audit_logs guild last (batch_size config)) ;;
  match entries with
  | _ :: _ =>
      _ <- logger (QueuedAuditLogEntries (length entries)) ;;
      ret (Some entries)
  | [] =>
      _ <- logger NoAuditLogEntriesFound ;;
      ret None
  end.

(** [write]: [for entry in entries: self.sql.insert_audit_log_entry(entry)];
    [trans] is not used. *)
Definition write (trans : Sql.Trans) (entries : list AuditLogEntry)
  : M (World R) Sql.Trans :=
  for_each (fun trans entry =>
              _ <- insert_audit_log_entry_1 entry ;; ret trans)
           entries trans.

Definition update (trans : Sql.Trans) (guild : Guild) (last_id : Z)
  : M (World R) Sql.Trans :=
  update_audit_log_crawl trans guild last_id.

Definition hooks : Hooks Guild AuditLogEntry R :=
  Build_Hooks Guild AuditLogEntry R guild_eqb entry_id read write update.

End AuditLogCrawler.

(** A store method declared as the spec has it, [insert_event(tx, event)],
    and called with one argument: Python raises [TypeError] (a required
    positional argument is missing) before the method runs. *)
Definition missing_argument {R} (entry : AuditLogEntry) : M (World R) unit :=
  raise TypeError.

(** A store method that would take the entry alone and insert it at once,
    outside any transaction. *)
Definition autocommit {R} (entry : AuditLogEntry) : M (World R) unit :=
  fun w =>
    if Sql.rejects (store w) (Sql.InsertAuditLogEntry entry)
    then (Raise StoreError, w)
    else (Ok tt, set_store (Sql.apply (store w) (Sql.InsertAuditLogEntry entry)) w).

End AuditLogCrawler.

(** ** Properties of hooks and queues used in the statements *)

(** A computation that reaches the tables only through the handle it is
    given: the committed tables are as before when it ends or raises. *)
Definition scoped {R A} (m : M (World R) A) : Prop :=
  forall w, store (snd (m w)) = store w.

(** Two keys equal to a third are equal to each other: true of any
    [__eq__] that is an equivalence. *)
Definition euclidean {K} (eqb : K -> K -> bool) : Prop :=
  forall a b c, eqb a b = true -> eqb a c = true -> eqb b c = true.

(** Every item still in the queue is counted as unfinished: what [put],
    [get] and [task_done] keep true of a queue made by [Queue.create]. *)
Definition queue_ok {A} (q : Queue.t A) : Prop :=
  Queue.qsize q <= Queue.unfinished_tasks q.

(** The cursor the store holds for a channel. *)
Definition persisted_channel_cursor {R} (w : World R) (channel : Channel)
  : option Z :=
  Sql.channel_crawl (store w) !! channel_id channel.

(** ** A remote service to run the crawlers against

    A Discord in which messages and audit-log entries are fixed lists in
    ascending order of ID, a page holds the first [limit] of those created
    after the given time, and every call fails while [down] is set. *)

Module Remote.

Record t : Type := {
  known_guilds : list Guild;
  channel_messages : list (Z * Message);   (* channel ID, message *)
  audit_entries : list AuditLogEntry;
  reactors : list Z;
  down : bool
}.

Definition created (id : Z) : Z := Z.shiftr id 22 + DISCORD_EPOCH.

Definition guarded {A} (r : t) (a : A) : result A * t :=
  if down r then (Raise RemoteError, r) else (Ok a, r).

Definition history (channel : Channel) (after limit : Z) (r : t)
  : result (list Message) * t :=
  guarded r
    (take (Z.to_nat limit)
       (map snd
          (filter (fun cm => (fst cm =? channel_id channel)
                             && (after <? created (message_id (snd cm))))
             (channel_messages r)))).

Definition users (reaction : Reaction) (r : t) : result (list Z) * t :=
  guarded r (reactors r).

Definition audit_logs (guild : Guild) (after limit : Z) (r : t)
  : result (list AuditLogEntry) * t :=
  guarded r
    (take (Z.to_nat limit)
       (filter (fun e => (entry_guild e =? guild_id guild)
                         && (after <? created (entry_id e)))
          (audit_entries r))).

Definition find_guild (id : Z) (r : t) : option Guild :=
  find (fun g => guild_id g =? id) (known_guilds r).

#[export] Instance discord : Discord t :=
  {| channel_history := history;
     reaction_users := users;
     guild_audit_logs := audit_logs;
     get_guild := find_guild |}.

End Remote.

(** An empty store on which no statement is rejected, and one that rejects
    every cursor update. *)
Definition empty_store (rejects : Sql.Stmt -> bool) : Sql.Store :=
  {| Sql.channel_crawl := ∅; Sql.audit_log_crawl := ∅; Sql.messages := ∅;
     Sql.emojis := ∅; Sql.reactions := []; Sql.audit_log := ∅;
     Sql.rejects := rejects |}.

Definition rejects_nothing (stmt : Sql.Stmt) : bool := false.

Definition rejects_cursor_updates (stmt : Sql.Stmt) : bool :=
  match stmt with
  | Sql.UpdateChannelCrawl _ _ | Sql.UpdateAuditLogCrawl _ _ => true
  | _ => false
  end.

(** A hook set whose [read] always hands back an empty list, not [None]:
    what neither crawler of this program does. *)
Definition empty_page_hooks : Hooks Z Z unit :=
  Build_Hooks Z Z unit Z.eqb (fun e => e)
    (fun _ _ => ret (Some []))
    (fun trans _ => ret trans)
    (fun trans _ _ => ret trans).

(** ** Notions used in the statements about rounds and calls *)

Definition is_transaction {Source Event} (call : Call Source Event) : bool :=
  match call with CallTransaction => true | _ => false end.

Definition is_write {Source Event} (call : Call Source Event) : bool :=
  match call with CallWrite _ => true | _ => false end.

Definition is_update {Source Event} (call : Call Source Event) : bool :=
  match call with CallUpdate _ _ => true | _ => false end.

Definition is_task_done {Source Event} (call : Call Source Event) : bool :=
  match call with CallTaskDone => true | _ => false end.

(** For each pair of a round's snapshot, in order: did its [read] find the
    source exhausted, that is, hand back [None]? *)
Fixpoint round_exhausted {Source Event R} `{Hooks Source Event R}
    (NOW_ID : Z) (pairs : list (Source * option Z))
    (st : bool * Crawler Source Event * World R) : list bool :=
  match pairs with
  | [] => []
  | p :: rest =>
      match fst (read (fst p) (snd p) (snd st)) with
      | Ok None => true
      | _ => false
      end :: round_exhausted NOW_ID rest (producer_step NOW_ID p st)
  end.

(** ** A small Discord for the examples *)

Module Demo.

(** The module was imported one second into the Discord epoch. *)
Definition NOW_ID : Z := Z.shiftl 1000 22.

Definition config : Config :=
  {| guilds := [1]; queue_size := 8; yield_delay := 1;
     empty_source_delay := 60; batch_size := 100 |}.

Definition general : Channel :=
  {| channel_id := 7; channel_guild := 1; read_message_history := true |}.

Definition random : Channel :=
  {| channel_id := 8; channel_guild := 1; read_message_history := true |}.

(** A channel the crawling identity may not read, and the same channel
    once the permission is granted. *)
Definition secret : Channel :=
  {| channel_id := 9; channel_guild := 1; read_message_history := false |}.

Definition secret_opened : Channel :=
  {| channel_id := 9; channel_guild := 1; read_message_history := true |}.

(** A message created [ms] milliseconds into the Discord epoch. *)
Definition message (ms : Z) : Message :=
  {| message_id := Z.shiftl ms 22; message_reactions := [] |}.

Definition thumbs_up (ms : Z) : Reaction :=
  {| reaction_message := Z.shiftl ms 22; reaction_emoji := 128077 |}.

Definition liked_message (ms : Z) : Message :=
  {| message_id := Z.shiftl ms 22; message_reactions := [thumbs_up ms] |}.

Definition guild : Guild :=
  {| guild_id := 1; text_channels := [general; random; secret] |}.

Definition entry (ms : Z) : AuditLogEntry :=
  {| entry_id := Z.shiftl ms 22; entry_guild := 1 |}.

(** [general] holds one message from before the import and one from after
    it; [random] holds none. *)
Definition discord : Remote.t :=
  {| Remote.known_guilds := [guild];
     Remote.channel_messages := [(7, message 500); (7, message 2000)];
     Remote.audit_entries := [entry 300];
     Remote.reactors := [42];
     Remote.down := false |}.

Definition store_with (rejects : Sql.Stmt -> bool) : Sql.Store :=
  {| Sql.channel_crawl := {[ 7 := 0; 8 := 0 ]};
     Sql.audit_log_crawl := {[ 1 := 0 ]};
     Sql.messages := ∅; Sql.emojis := ∅; Sql.reactions := [];
     Sql.audit_log := ∅; Sql.rejects := rejects |}.

Definition world : World Remote.t :=
  {| store := store_with rejects_nothing; remote := discord; log := [] |}.

Definition crawler : Crawler Channel Message :=
  {| progress := [(general, Some 0); (random, Some 0)];
     queue := Queue.create (queue_size config) |}.

(** The store of [world], but rejecting every cursor update. *)
Definition failing_world : World Remote.t :=
  {| store := store_with rejects_cursor_updates; remote := discord;
     log := [] |}.

(** A crawler with two items waiting: a page of [general] with a message
    that has a reaction, and the empty read of [random]. *)
Definition backlog : Crawler Channel Message :=
  {| progress := [(general, Some (Z.shiftl 500 22)); (random, Some NOW_ID)];
     queue := Queue.put (random, None, NOW_ID)
                (Queue.put (general, Some [liked_message 500], Z.shiftl 500 22)
                   (Queue.create (queue_size config))) |}.

(** The audit-log crawler with one page waiting. *)
Definition audit_backlog : Crawler Guild AuditLogEntry :=
  {| progress := [(guild, Some (Z.shiftl 300 22))];
     queue := Queue.put (guild, Some [entry 300], Z.shiftl 300 22)
                (Queue.create (queue_size config)) |}.

End Demo.

(** ** Notions used in further statements *)

(** The intervals in ascending order and apart from each other: each ends
    below the start of all that follow. *)
Fixpoint ascending (rs : list Range.t) : Prop :=
  match rs with
  | [] => True
  | r :: rs' =>
      Forall (fun r' => Range.max r < Range.min r') rs' /\ ascending rs'
  end.

(** The point [x] lies in the interval [r]. *)
Definition covers (r : Range.t) (x : Z) : Prop :=
  Range.min r <= x <= Range.max r.

(** A work item as the producer makes them: the drained sentinel with no
    events, or a page with at least one event and its greatest ID. *)
Definition item_ok {Source Event R} `{Hooks Source Event R} (NOW_ID : Z)
    (item : Item Source Event) : Prop :=
  match item with
  | (_, None, last_id) => last_id = NOW_ID
  | (_, Some events, last_id) =>
      events <> [] /\ get_last_id events = Ok last_id
  end.

(** Between two steps nothing is taken and not done: the count of
    unfinished tasks is the size of the queue, and the items are as the
    producer makes them. *)
Definition settled {Source Event R} `{Hooks Source Event R} (NOW_ID : Z)
    (c : Crawler Source Event) : Prop :=
  Queue.unfinished_tasks (queue c) = Queue.qsize (queue c)
  /\ Forall (item_ok NOW_ID) (Queue.items (queue c)).

(** What the two coroutines of a crawler do, one step at a time: the
    producer handles one pair of its snapshot, or the consumer takes one
    turn. *)
Inductive Action (Source : Type) : Type :=
| Produce (pair : Source * option Z)
| Consume.
Arguments Produce {Source} pair.
Arguments Consume {Source}.

(** A schedule of such steps from a state; [None] when an exception has
    left the consumer loop. *)
Fixpoint run {Source Event R} `{Hooks Source Event R} (NOW_ID : Z)
    (schedule : list (Action Source))
    (st : bool * Crawler Source Event * World R)
  : option (bool * Crawler Source Event * World R) :=
  match schedule with
  | [] => Some st
  | Produce p :: schedule' =>
      run NOW_ID schedule' (producer_step NOW_ID p st)
  | Consume :: schedule' =>
      let '(done, c, w) := st in
      match consumer_step c w with
      | Suspended => run NOW_ID schedule' st
      | Handled _ _ c' w' => run NOW_ID schedule' (done, c', w')
      | Died _ _ _ => None
      end
  end.

(** The messages a transaction inserts, in order. *)
Definition inserted_messages (trans : Sql.Trans) : list Message :=
  flat_map (fun stmt => match stmt with
                        | Sql.InsertMessage m => [m]
                        | _ => []
                        end) trans.

(** The reactions a transaction inserts, in order. *)
Definition inserted_reactions (trans : Sql.Trans) : list Reaction :=
  flat_map (fun stmt => match stmt with
                        | Sql.InsertReaction r _ => [r]
                        | _ => []
                        end) trans.

(** The IDs of the channels a progress mapping tracks, in order. *)
Definition tracked_ids (progress : list (Channel * option Z)) : list Z :=
  map (fun kv => channel_id (fst kv)) progress.

(** The progress mapping and the store agree: every tracked channel has a
    number for a cursor, and the store holds that number for it. *)
Definition in_step {R} (progress : list (Channel * option Z)) (w : World R)
  : Prop :=
  forall channel cursor,
    Dict.get channel_eqb channel progress = Some cursor ->
    exists last_id,
      cursor = Some last_id
      /\ persisted_channel_cursor w channel = Some last_id.

(** The statements that write a cursor table. *)
Definition touches_cursors (stmt : Sql.Stmt) : bool :=
  match stmt with
  | Sql.InsertChannelCrawl _ _ | Sql.UpdateChannelCrawl _ _
  | Sql.DeleteChannelCrawl _ | Sql.InsertAuditLogCrawl _ _
  | Sql.UpdateAuditLogCrawl _ _ => true
  | _ => false
  end.

(** The emoji of the reactions of a page, in order. *)
Definition page_reactions (messages : list Message) : list Reaction :=
  flat_map message_reactions messages.

(** What a handle has gained when [write] is through with it: insertions
    of the given messages and reactions, after what was there, and nothing
    on the cursor tables. *)
Definition gained (trans trans' : Sql.Trans) (messages : list Message)
    (reactions : list Reaction) : Prop :=
  exists added,
    trans' = trans ++ added
    /\ inserted_messages added = messages
    /\ inserted_reactions added = reactions
    /\ forallb (fun stmt => negb (touches_cursors stmt)) added = true.

(** The mapping and the handle of [init] while it runs: every entry is a
    number that the tables, as the transaction has made them, hold for the
    channel; and every tracked channel is one whose history may be read. *)
Definition seeded (s : Sql.Store) (acc : list (Channel * option Z) * Sql.Trans)
  : Prop :=
  (forall channel cursor,
     Dict.get channel_eqb channel (fst acc) = Some cursor ->
     exists last_id,
       cursor = Some last_id
       /\ Sql.channel_crawl (Sql.commit (snd acc) s) !! channel_id channel
          = Some last_id)
  /\ Forall (fun kv => read_message_history (fst kv) = true) (fst acc).


(** The same for the audit-log crawler: every tracked guild has a number
    for a cursor, and the store holds that number for it. *)
Definition audit_seeded (s : Sql.Store) (acc : list (Guild * option Z) * Sql.Trans)
  : Prop :=
  forall guild cursor,
    Dict.get guild_eqb guild (fst acc) = Some cursor ->
    exists last_id,
      cursor = Some last_id
      /\ Sql.audit_log_crawl (Sql.commit (snd acc) s) !! guild_id guild
         = Some last_id.

Definition audit_in_step {R} (progress : list (Guild * option Z)) (w : World R)
  : Prop :=
  forall guild cursor,
    Dict.get guild_eqb guild progress = Some cursor ->
    exists last_id,
      cursor = Some last_id
      /\ Sql.audit_log_crawl (store w) !! guild_id guild = Some last_id.

(** A store that rejects every statement. *)
Definition rejects_everything (stmt : Sql.Stmt) : bool := true.

(** The example world with the remote service down: every call into the
    Discord client raises. *)
Definition offline_world : World Remote.t :=
  {| store := Demo.store_with rejects_nothing;
     remote := {| Remote.known_guilds := [Demo.guild];
                  Remote.channel_messages := [];
                  Remote.audit_entries := [];
                  Remote.reactors := [];
                  Remote.down := true |};
     log := [] |}.

(** What the first part of the consumer's [with] body comes to for an item:
    [write] through a fresh handle when events are present, the fresh
    handle as it is when they are not. *)
Definition written {Source Event R} `{Hooks Source Event R}
    (events : option (list Event)) (w : World R)
  : result Sql.Trans * World R :=
  match events with
  | Some events => write Sql.transaction events w
  | None => (Ok Sql.transaction, w)
  end.
(** ** Theorems about [find_first_hole] *)

(** What the function returns in each of its two branches. *)
Lemma find_first_hole_cases (h : MessageHistory.t) (start : Z) :
  MessageHistory.find_first_hole h start =
    match MessageHistory.first h with
    | None => Some (Z.min start (MessageHistory.boundary h start))
    | Some f =>
        if f <? MessageHistory.boundary h start
        then Some (Z.min start (MessageHistory.boundary h start))
        else None
    end.
Proof.
  unfold MessageHistory.find_first_hole.
  destruct (MessageHistory.first h); reflexivity.
Qed.

(** C3, as the spec states it, fails on the spec's own example: the
    intervals [[10,20]] with [first=None] and start point 10 give the
    hole 10, not "no hole". *)
Lemma C3_first_none_counterexample :
  MessageHistory.find_first_hole
    (MessageHistory.make [Range.make 10 20] None) 10 = Some 10
  /\ MessageHistory.find_first_hole
    (MessageHistory.make [Range.make 10 20] None) 10 <> None.
Proof. split; [reflexivity | discriminate]. Qed.

(** C3 (amended): when the origin marker [first] is unset, the test
    [self.first is None or ...] succeeds, so [find_first_hole(start)] always
    reports a hole, namely [min(start, boundary)], which is at most
    [start]; it never returns [None]. *)
Theorem C3_first_none_reports_hole (h : MessageHistory.t) (start : Z) :
  MessageHistory.first h = None ->
  MessageHistory.find_first_hole h start
    = Some (Z.min start (MessageHistory.boundary h start))
  /\ MessageHistory.find_first_hole h start <> None
  /\ (forall x, MessageHistory.find_first_hole h start = Some x -> x <= start).
Proof.
  intros Hfirst. rewrite find_first_hole_cases, Hfirst.
  split; [reflexivity | split; [discriminate |]].
  intros x Hx. injection Hx as <-. lia.
Qed.

Lemma C3_first_none_reports_hole_witness :
  let h := MessageHistory.make [Range.make 10 20; Range.make 25 30] None in
  MessageHistory.first h = None
  /\ MessageHistory.find_first_hole h 27 = Some 25.
Proof.
  cbv zeta. split; [reflexivity |].
  exact (proj1 (C3_first_none_reports_hole
           (MessageHistory.make [Range.make 10 20; Range.make 25 30] None) 27
           eq_refl)).
Defined.

(** C8: the two literal examples pinned by the spec.  Intervals [[10,20]],
    [first=0]: [find_first_hole(10)] is 10 (the boundary reached, not
    [first]).  No interval, [first=5]: [find_first_hole(100)] is 100.  In
    both the value is [min(start, boundary)]. *)
Theorem C8_pinned_examples :
  let h1 := MessageHistory.make [Range.make 10 20] (Some 0) in
  let h2 := MessageHistory.make [] (Some 5) in
  MessageHistory.find_first_hole h1 10 = Some 10
  /\ MessageHistory.boundary h1 10 = 10
  /\ MessageHistory.find_first_hole h1 10
       = Some (Z.min 10 (MessageHistory.boundary h1 10))
  /\ MessageHistory.find_first_hole h2 100 = Some 100
  /\ MessageHistory.boundary h2 100 = 100
  /\ MessageHistory.find_first_hole h2 100
       = Some (Z.min 100 (MessageHistory.boundary h2 100)).
Proof. cbv zeta. repeat split. Qed.

(** ** The producer *)

Ltac run_monad :=
  unfold bind, ret, raise, logger, await, lift_result, sql_execute,
    client_get_guild in *; simpl in *.

Section ProducerFacts.
Context {Source Event R : Type} `{Hooks Source Event R}.
Variable NOW_ID : Z.

Lemma fold_left_max_ge (xs : list Z) (x : Z) :
  x <= fold_left Z.max xs x /\
  (forall y, In y xs -> y <= fold_left Z.max xs x).
Proof.
  revert x. induction xs as [|y xs IH]; intros x; simpl.
  - split; [lia | intros ? []].
  - destruct (IH (Z.max x y)) as [H1 H2]. split; [lia |].
    intros z [<- | Hz]; [lia | auto].
Qed.

Lemma fold_left_max_in (xs : list Z) (x : Z) :
  In (fold_left Z.max xs x) (x :: xs).
Proof.
  revert x. induction xs as [|y xs IH]; intros x; simpl.
  - now left.
  - destruct (IH (Z.max x y)) as [Heq | Hin].
    + destruct (Z.max_spec x y) as [[_ Hm] | [_ Hm]]; rewrite Hm in *.
      * right. now left.
      * now left.
    + right. now right.
Qed.

Lemma get_last_id_empty : get_last_id [] = Raise ValueError.
Proof. reflexivity. Qed.

(** On a page with an event, [get_last_id] is the greatest ID of the
    page. *)
Lemma get_last_id_max (e : Event) (es : list Event) :
  exists m, get_last_id (e :: es) = Ok m
            /\ (forall x, In x (e :: es) -> event_id x <= m)
            /\ (exists x, In x (e :: es) /\ event_id x = m).
Proof.
  unfold get_last_id. simpl.
  exists (fold_left Z.max (map event_id es) (event_id e)).
  split; [reflexivity |]. split.
  - intros x [<- | Hx].
    + exact (proj1 (fold_left_max_ge _ _)).
    + apply (proj2 (fold_left_max_ge (map event_id es) (event_id e))).
      now apply in_map.
  - destruct (fold_left_max_in (map event_id es) (event_id e)) as [Heq | Hin].
    + exists e. split; [now left | exact Heq].
    + apply in_map_iff in Hin as (x & Hx & Hin). exists x.
      split; [now right | exact Hx].
Qed.

(** A [read] that raises: the [except] clause logs, and neither the
    mapping, nor the queue, nor the flag [done] has changed. *)
Lemma producer_step_read_raises source last_id done c (w w1 : World R) e :
  read source last_id w = (Raise e, w1) ->
  producer_step NOW_ID (source, last_id) (done, c, w)
  = (done, c, snd (logger ErrorReadingEvents w1)).
Proof. intros Hread. unfold producer_step. now rewrite Hread. Qed.

(** A [read] that hands back an empty list: [get_last_id] raises inside the
    [try], with the same outcome. *)
Lemma producer_step_empty_page source last_id done c (w w1 : World R) :
  read source last_id w = (Ok (Some []), w1) ->
  producer_step NOW_ID (source, last_id) (done, c, w)
  = (done, c, snd (logger ErrorReadingEvents w1)).
Proof. intros Hread. unfold producer_step. now rewrite Hread. Qed.

(** A [read] that finds the source exhausted. *)
Lemma producer_step_exhausted source last_id done c (w w1 : World R) :
  read source last_id w = (Ok None, w1) ->
  producer_step NOW_ID (source, last_id) (done, c, w)
  = (true,
     {| progress := Dict.set source_eqb source (Some NOW_ID) (progress c);
        queue := Queue.put (source, None, NOW_ID) (queue c) |}, w1).
Proof. intros Hread. unfold producer_step. now rewrite Hread. Qed.

(** A [read] that hands back a page with events. *)
Lemma producer_step_page source last_id done c (w w1 : World R) e es m :
  read source last_id w = (Ok (Some (e :: es)), w1) ->
  get_last_id (e :: es) = Ok m ->
  producer_step NOW_ID (source, last_id) (done, c, w)
  = (done,
     {| progress := Dict.set source_eqb source (Some m) (progress c);
        queue := Queue.put (source, Some (e :: es), m) (queue c) |}, w1).
Proof.
  intros Hread Hmax. unfold producer_step. rewrite Hread, Hmax. reflexivity.
Qed.

(** Once [done] is set, no later source of the round clears it. *)
Lemma producer_step_keeps_done pair c (w : World R) :
  fst (fst (producer_step NOW_ID pair (true, c, w))) = true.
Proof.
  unfold producer_step. destruct pair as [source last_id].
  destruct (read source last_id w) as [[[events|]|e] w1]; try reflexivity.
  destruct (get_last_id events); reflexivity.
Qed.

Lemma producer_steps_keep_done pairs c (w : World R) :
  fst (fst (fold_left (fun st pair => producer_step NOW_ID pair st) pairs
              (true, c, w))) = true.
Proof.
  revert c w. induction pairs as [|pair pairs IH]; intros c w; cbn [fold_left].
  - reflexivity.
  - pose proof (producer_step_keeps_done pair c w) as Hd.
    destruct (producer_step NOW_ID pair (true, c, w)) as [[d c1] w1].
    simpl in Hd. subst d. apply IH.
Qed.

End ProducerFacts.

(** The [read] of either crawler hands back [None] for an empty page, never
    an empty list. *)
Lemma HistoryCrawler_read_page {R} `{Discord R} config channel last_id
    (w : World R) :
  match fst (HistoryCrawler.read config channel last_id w) with
  | Ok (Some []) => False
  | _ => True
  end.
Proof.
  unfold HistoryCrawler.read. run_monad.
  destruct last_id as [i|]; simpl; [| exact I].
  destruct (channel_history channel _ _ (remote w)) as [[[|m ms]|e] r'];
    simpl; exact I.
Qed.

Lemma AuditLogCrawler_read_page {R} `{Discord R} config guild last_id
    (w : World R) :
  match fst (AuditLogCrawler.read config guild last_id w) with
  | Ok (Some []) => False
  | _ => True
  end.
Proof.
  unfold AuditLogCrawler.read. run_monad.
  destruct last_id as [i|]; simpl; [| exact I].
  destruct (guild_audit_logs guild _ _ (remote w)) as [[[|m ms]|e] r'];
    simpl; exact I.
Qed.

(** A cursor [None] makes [read] raise [TypeError] before anything is asked
    of the remote service. *)
Lemma HistoryCrawler_read_None {R} `{Discord R} config channel (w : World R) :
  HistoryCrawler.read config channel None w = (Raise TypeError, w).
Proof. reflexivity. Qed.

(** ** Dictionaries *)

Section DictFacts.
Context {K V : Type} (eqb : K -> K -> bool).

Lemma dict_get_set_other (k s : K) (v : V) (d : list (K * V)) :
  euclidean eqb -> eqb k s = false ->
  Dict.get eqb s (Dict.set eqb k v d) = Dict.get eqb s d.
Proof.
  intros Heu Hks. induction d as [|[k' v'] d IH]; simpl.
  - now rewrite Hks.
  - destruct (eqb k' k) eqn:Ek; simpl.
    + destruct (eqb k' s) eqn:Es; [| reflexivity].
      rewrite (Heu k' k s Ek Es) in Hks. discriminate.
    + destruct (eqb k' s); [reflexivity | exact IH].
Qed.

Lemma dict_get_set_same (k : K) (v : V) (d : list (K * V)) :
  euclidean eqb -> eqb k k = true ->
  Dict.get eqb k (Dict.set eqb k v d) = Some v.
Proof.
  intros Heu Hkk. induction d as [|[k' v'] d IH]; simpl.
  - now rewrite Hkk.
  - destruct (eqb k' k) eqn:Ek; simpl; rewrite Ek; [reflexivity | exact IH].
Qed.

End DictFacts.

Section RoundFacts.
Context {Source Event R : Type} `{Hooks Source Event R}.
Variable NOW_ID : Z.

(** A step for another source leaves the entry of [s] as it is. *)
Lemma producer_step_other_source (s : Source) pair done c (w : World R) :
  euclidean source_eqb -> source_eqb (fst pair) s = false ->
  Dict.get source_eqb s
    (progress (snd (fst (producer_step NOW_ID pair (done, c, w)))))
  = Dict.get source_eqb s (progress c).
Proof.
  intros Heu Hne. destruct pair as [source last_id]. simpl in Hne.
  unfold producer_step.
  destruct (read source last_id w) as [[[events|]|e] w1]; simpl.
  - destruct (get_last_id events); simpl; [| reflexivity].
    now apply dict_get_set_other.
  - now apply dict_get_set_other.
  - reflexivity.
Qed.

Lemma producer_steps_other_sources (s : Source) pairs done c (w : World R) :
  euclidean source_eqb ->
  (forall pair, In pair pairs -> source_eqb (fst pair) s = false) ->
  Dict.get source_eqb s
    (progress (snd (fst (fold_left
       (fun st pair => producer_step NOW_ID pair st) pairs (done, c, w)))))
  = Dict.get source_eqb s (progress c).
Proof.
  intros Heu. revert done c w.
  induction pairs as [|pair pairs IH]; intros done c w Hne; cbn [fold_left].
  - reflexivity.
  - pose proof (producer_step_other_source s pair done c w Heu
                  (Hne pair (or_introl eq_refl))) as Hstep.
    destruct (producer_step NOW_ID pair (done, c, w)) as [[d1 c1] w1].
    simpl in Hstep. rewrite <- Hstep. apply IH.
    intros p Hp. apply Hne. now right.
Qed.

End RoundFacts.

(** C9: [get_last_id] is [max] over the IDs, a [ValueError] on an empty
    collection and the greatest ID on any other; a [read] that hands back an
    empty list makes the producer's [try] block raise there, which the
    [except] clause logs, with the cursor not advanced and nothing put on
    the queue; and the [read] hooks of both crawlers never hand back an
    empty list, they hand back [None]. *)
Theorem C9_get_last_id_needs_events :
  forall (Source Event R : Type) (H : Hooks Source Event R) (NOW_ID : Z),
    get_last_id [] = Raise ValueError
    /\ (forall e es, exists m,
          get_last_id (e :: es) = Ok m
          /\ (forall x, In x (e :: es) -> event_id x <= m)
          /\ (exists x, In x (e :: es) /\ event_id x = m))
    /\ (forall source last_id done c (w w1 : World R),
          read source last_id w = (Ok (Some []), w1) ->
          producer_step NOW_ID (source, last_id) (done, c, w)
          = (done, c, snd (logger ErrorReadingEvents w1)))
    /\ (forall (D : Discord R) config channel last_id (w : World R),
          fst (HistoryCrawler.read config channel last_id w) <> Ok (Some []))
    /\ (forall (D : Discord R) config guild last_id (w : World R),
          fst (AuditLogCrawler.read config guild last_id w) <> Ok (Some [])).
Proof.
  intros Source Event R H NOW_ID. repeat split.
  - intros e es. apply get_last_id_max.
  - intros. now apply producer_step_empty_page.
  - intros D config channel last_id w Heq.
    pose proof (HistoryCrawler_read_page config channel last_id w) as Hp.
    now rewrite Heq in Hp.
  - intros D config guild last_id w Heq.
    pose proof (AuditLogCrawler_read_page config guild last_id w) as Hp.
    now rewrite Heq in Hp.
Qed.

Lemma C9_get_last_id_needs_events_witness :
  let w := {| store := empty_store rejects_nothing; remote := tt; log := [] |} in
  let c := {| progress := [(5, Some 0)]; queue := Queue.create 2 |} in
  @read Z Z unit empty_page_hooks 5 (Some 0) w = (Ok (Some []), w)
  /\ @producer_step Z Z unit empty_page_hooks 1000 (5, Some 0) (false, c, w)
     = (false, c, snd (logger ErrorReadingEvents w)).
Proof.
  cbv zeta. split; [reflexivity |].
  exact (proj1 (proj2 (proj2
    (C9_get_last_id_needs_events Z Z unit empty_page_hooks 1000)))
    5 (Some 0) false _ _ _ eq_refl).
Defined.

(** C7: when [read] raises for a source in a round, the step for that
    source changes neither the progress mapping nor the queue nor the
    round's flag, it only logs; the round goes on with the sources after it
    from that state, and ends with a delay like any other round.  The keys
    of the snapshot being distinct, the entry of the source is after the
    round what it was before it, so the next round reads it from the same
    cursor. *)
Theorem C7_read_failure_is_contained :
  forall (Source Event R : Type) (H : Hooks Source Event R) (NOW_ID : Z)
         (config : Config)
         (before after : list (Source * option Z)) (source : Source)
         (last_id : option Z) (c c1 : Crawler Source Event)
         (w w1 w2 : World R) (done1 : bool) (e : exn),
    let step := fun st pair => producer_step NOW_ID pair st in
    fold_left step before (false, c, w) = (done1, c1, w1) ->
    read source last_id w1 = (Raise e, w2) ->
    let w3 := snd (logger ErrorReadingEvents w2) in
    (* the step of the failing source *)
    producer_step NOW_ID (source, last_id) (done1, c1, w1) = (done1, c1, w3)
    (* the rest of the round *)
    /\ fold_left step (before ++ (source, last_id) :: after) (false, c, w)
       = fold_left step after (done1, c1, w3)
    /\ (progress c = before ++ (source, last_id) :: after ->
        producer_round NOW_ID config c w
        = let '(done, c', w') := fold_left step after (done1, c1, w3) in
          if done : bool
          then (empty_source_delay config, c',
                snd (logger AllSourcesExhausted w'))
          else (yield_delay config, c', w'))
    (* the entry of the source after the round *)
    /\ (euclidean source_eqb ->
        (forall pair, In pair (before ++ after) ->
                      source_eqb (fst pair) source = false) ->
        Dict.get source_eqb source
          (progress (snd (fst (fold_left step
             (before ++ (source, last_id) :: after) (false, c, w)))))
        = Dict.get source_eqb source (progress c)).
Proof.
  intros Source Event R H NOW_ID config before after source last_id c c1
    w w1 w2 done1 e step Hbefore Hread w3.
  subst step.
  assert (Hstep : producer_step NOW_ID (source, last_id) (done1, c1, w1)
                  = (done1, c1, w3))
    by now apply producer_step_read_raises with (e := e).
  assert (Hrest :
    fold_left (fun st pair => producer_step NOW_ID pair st)
      (before ++ (source, last_id) :: after) (false, c, w)
    = fold_left (fun st pair => producer_step NOW_ID pair st) after
        (done1, c1, w3)).
  { rewrite fold_left_app, Hbefore. cbn [fold_left]. now rewrite Hstep. }
  split; [exact Hstep |]. split; [exact Hrest |]. split.
  - intros Hsnap. unfold producer_round. rewrite Hsnap, Hrest. reflexivity.
  - intros Heu Hne. rewrite Hrest.
    rewrite (producer_steps_other_sources NOW_ID source after done1 c1 w3 Heu).
    + pose proof (producer_steps_other_sources NOW_ID source before false c w
                    Heu) as Hb.
      rewrite Hbefore in Hb. simpl in Hb. apply Hb.
      intros p Hp. apply Hne. apply in_or_app. now left.
    + intros p Hp. apply Hne. apply in_or_app. now right.
Qed.

Lemma C7_read_failure_is_contained_witness :
  let hooks := HistoryCrawler.hooks (H := Remote.discord) Demo.config in
  let c := {| progress := [(Demo.general, None); (Demo.random, Some 0)];
              queue := Queue.create 8 |} in
  @read _ _ _ hooks Demo.general None Demo.world
    = (Raise TypeError, Demo.world)
  /\ @producer_step _ _ _ hooks Demo.NOW_ID (Demo.general, None)
       (false, c, Demo.world)
     = (false, c, snd (logger ErrorReadingEvents Demo.world)).
Proof.
  cbv zeta. split; [reflexivity |].
  exact (proj1 (C7_read_failure_is_contained Channel Message Remote.t
    (HistoryCrawler.hooks (H := Remote.discord) Demo.config)
    Demo.NOW_ID Demo.config [] [(Demo.random, Some 0)]
    Demo.general None _ _ Demo.world Demo.world Demo.world
    false TypeError eq_refl eq_refl)).
Defined.

(** ** The delay at the end of a round *)

Section DelayFacts.
Context {Source Event R : Type} `{Hooks Source Event R}.
Variable NOW_ID : Z.

Lemma producer_step_done pair done c (w : World R) :
  fst (fst (producer_step NOW_ID pair (done, c, w)))
  = done || match fst (read (fst pair) (snd pair) w) with
            | Ok None => true
            | _ => false
            end.
Proof.
  destruct pair as [source last_id]. unfold producer_step. simpl.
  destruct (read source last_id w) as [[[events|]|e] w1]; simpl.
  - destruct (get_last_id events); simpl; now rewrite orb_false_r.
  - now rewrite orb_true_r.
  - now rewrite orb_false_r.
Qed.

(** The flag [done] at the end of the [for] loop: set when it was set
    before, or when some [read] of the loop handed back [None]. *)
Lemma producer_steps_done pairs done c (w : World R) :
  fst (fst (fold_left (fun st pair => producer_step NOW_ID pair st) pairs
              (done, c, w)))
  = done || existsb (fun b => b) (round_exhausted NOW_ID pairs (done, c, w)).
Proof.
  revert done c w.
  induction pairs as [|pair pairs IH]; intros done c w;
    cbn [fold_left round_exhausted existsb].
  - now rewrite orb_false_r.
  - pose proof (producer_step_done pair done c w) as Hstep.
    destruct (producer_step NOW_ID pair (done, c, w)) as [[d1 c1] w1].
    simpl in Hstep. rewrite IH, Hstep. cbn [snd]. now rewrite orb_assoc.
Qed.

Lemma producer_round_delay config c (w : World R) :
  fst (fst (producer_round NOW_ID config c w))
  = if existsb (fun b => b)
         (round_exhausted NOW_ID (progress c) (false, c, w))
    then empty_source_delay config
    else yield_delay config.
Proof.
  unfold producer_round.
  pose proof (producer_steps_done (progress c) false c w) as Hdone.
  destruct (fold_left _ (progress c) (false, c, w)) as [[done c1] w1].
  simpl in Hdone. rewrite <- Hdone. now destruct done.
Qed.

End DelayFacts.

(** C4, on the code: the round sleeps the long delay as soon as ONE source
    of the round was found exhausted, whatever the others handed back.  In
    the example, [general] hands back a page of two messages, [random] is
    exhausted, and the round logs "all sources are exhausted" and picks the
    long delay of 60 and not the short one of 1. *)
Theorem C4_long_delay_when_one_source_is_exhausted :
  (forall (Source Event R : Type) (H : Hooks Source Event R) (NOW_ID : Z)
          (config : Config) (c : Crawler Source Event) (w : World R),
      fst (fst (producer_round NOW_ID config c w))
      = if existsb (fun b => b)
             (round_exhausted NOW_ID (progress c) (false, c, w))
        then empty_source_delay config
        else yield_delay config)
  /\ (let hooks := HistoryCrawler.hooks (H := Remote.discord) Demo.config in
      let round := @producer_round _ _ _ hooks Demo.NOW_ID Demo.config
                     Demo.crawler Demo.world in
      @round_exhausted _ _ _ hooks Demo.NOW_ID (progress Demo.crawler)
        (false, Demo.crawler, Demo.world) = [false; true]
      /\ Queue.items (queue (snd (fst round)))
         = [(Demo.general,
             Some [Demo.message 500; Demo.message 2000],
             Z.shiftl 2000 22);
            (Demo.random, None, Demo.NOW_ID)]
      /\ fst (fst round) = empty_source_delay Demo.config
      /\ fst (fst round) <> yield_delay Demo.config
      /\ last (log (snd round)) = Some AllSourcesExhausted).
Proof.
  split.
  - intros. apply producer_round_delay.
  - cbv zeta. repeat split; try (vm_compute; reflexivity).
    vm_compute. discriminate.
Qed.

(** C2, on the code: [NOW_ID] is fixed when the module is imported.  A
    message created after that has a greater ID; once its page is read the
    cursor of the channel is that ID, and the empty read that follows sets
    the cursor back to [NOW_ID].  The consumer commits both, and the cursor
    the store holds for the channel goes down. *)
Theorem C2_persisted_cursor_goes_back_to_NOW_ID :
  let hooks := HistoryCrawler.hooks (H := Remote.discord) Demo.config in
  let '(_, produced, w) :=
    @producer_rounds _ _ _ hooks Demo.NOW_ID Demo.config 2
      Demo.crawler Demo.world in
  let '(c1, w1) := @consumer_loop _ _ _ hooks 1 produced w in
  let '(c3, w3) := @consumer_loop _ _ _ hooks 2 c1 w1 in
  (* what the two rounds have put on the queue, in order *)
  map (fun item => (channel_id (fst (fst item)), snd item))
      (Queue.items (queue produced))
    = [(7, Z.shiftl 2000 22); (8, Demo.NOW_ID);
       (7, Demo.NOW_ID); (8, Demo.NOW_ID)]
  (* the cursor of [general] in the store after the first and the third
     item *)
  /\ persisted_channel_cursor w1 Demo.general = Some (Z.shiftl 2000 22)
  /\ persisted_channel_cursor w3 Demo.general = Some Demo.NOW_ID
  /\ Demo.NOW_ID < Z.shiftl 2000 22
  (* and in the progress mapping *)
  /\ Dict.get channel_eqb Demo.general (progress produced)
     = Some (Some Demo.NOW_ID).
Proof. vm_compute. repeat split; reflexivity. Qed.

(** ** The consumer *)

Section ConsumerFacts.
Context {Source Event R : Type} `{Hooks Source Event R}.

Lemma queue_get_front {A} (q : Queue.t A) (item : A) (rest : list A) :
  Queue.items q = item :: rest ->
  Queue.get q
  = Some (item, Queue.make (Queue.maxsize q) rest (Queue.unfinished_tasks q)).
Proof. intros Hq. unfold Queue.get. now rewrite Hq. Qed.

Lemma queue_task_done_ok {A} (q : Queue.t A) :
  0 < Queue.unfinished_tasks q ->
  Queue.task_done q
  = Ok (Queue.make (Queue.maxsize q) (Queue.items q)
          (Queue.unfinished_tasks q - 1)).
Proof.
  intros Hpos. unfold Queue.task_done.
  destruct (Z.leb_spec (Queue.unfinished_tasks q) 0); [lia | reflexivity].
Qed.

Lemma queue_ok_front {A} (q : Queue.t A) (item : A) (rest : list A) :
  Queue.items q = item :: rest -> queue_ok q -> 0 < Queue.unfinished_tasks q.
Proof.
  unfold queue_ok, Queue.qsize. intros -> Hok. simpl length in Hok. lia.
Qed.

(** [put] keeps the count of unfinished tasks above the size. *)
Lemma queue_ok_put {A} (q : Queue.t A) (item : A) :
  queue_ok q -> queue_ok (Queue.put item q).
Proof.
  unfold queue_ok, Queue.qsize, Queue.put. simpl.
  rewrite length_app. simpl. lia.
Qed.

Lemma queue_ok_create {A} (maxsize : Z) : queue_ok (@Queue.create A maxsize).
Proof. unfold queue_ok, Queue.qsize, Queue.create. simpl. lia. Qed.

(** The consumer's turn on a queue with an item at the front, in terms of
    its [try] statement. *)
Lemma consumer_step_front c (w : World R) item rest :
  Queue.items (queue c) = item :: rest ->
  queue_ok (queue c) ->
  consumer_step c w
  = let '(calls, caught, w1) :=
      consumer_try item (snd (logger GotGroupOfEvents w)) in
    Handled (calls ++ [CallTaskDone]) caught
      {| progress := progress c;
         queue := Queue.make (Queue.maxsize (queue c)) rest
                    (Queue.unfinished_tasks (queue c) - 1) |} w1.
Proof.
  intros Hitems Hok. unfold consumer_step.
  rewrite (queue_get_front _ _ _ Hitems).
  destruct (consumer_try item _) as [[calls caught] w1].
  rewrite queue_task_done_ok; [reflexivity |].
  simpl. now apply queue_ok_front with (item := item) (rest := rest).
Qed.

(** The calls of the [try] statement, by the way it ends. *)
Lemma consumer_try_calls source events last_id (w : World R) :
  let writes := match events with
                | Some es => [CallWrite es]
                | None => []
                end in
  let '(calls, caught, _) := consumer_try (source, events, last_id) w in
  match caught with
  | None =>
      calls = [CallTransaction] ++ writes
                ++ [CallUpdate source last_id; CallCommit]
  | Some _ =>
      calls = [CallTransaction] ++ writes ++ [CallRollback]
      \/ calls = [CallTransaction] ++ writes
                   ++ [CallUpdate source last_id; CallRollback]
  end.
Proof.
  unfold consumer_try.
  destruct events as [es|].
  - destruct (write Sql.transaction es w) as [[t1|e] w1].
    + destruct (update t1 source last_id w1) as [[t2|e] w2]; simpl; auto.
    + simpl. auto.
  - destruct (update Sql.transaction source last_id w) as [[t2|e] w2];
      simpl; auto.
Qed.

End ConsumerFacts.

(** C10: for an item at the front of the queue, whatever [write] and
    [update] do, the consumer's turn ends normally with exactly one call of
    [task_done], made after the [try] statement: also when the [try]
    statement caught an exception.  The count of unfinished tasks goes down
    by one as the queue loses the item, so the count of items taken and not
    yet done is what it was. *)
Theorem C10_task_done_once_per_item :
  forall (Source Event R : Type) (H : Hooks Source Event R)
         (c : Crawler Source Event) (w : World R)
         (item : Item Source Event) (rest : list (Item Source Event)),
    Queue.items (queue c) = item :: rest ->
    queue_ok (queue c) ->
    exists calls caught c' w',
      consumer_step c w = Handled calls caught c' w'
      /\ caught = snd (fst (consumer_try item (snd (logger GotGroupOfEvents w))))
      /\ length (filter is_task_done calls) = 1%nat
      /\ last calls = Some CallTaskDone
      /\ Queue.items (queue c') = rest
      /\ Queue.unfinished_tasks (queue c')
         = Queue.unfinished_tasks (queue c) - 1
      /\ Queue.unfinished_tasks (queue c') - Queue.qsize (queue c')
         = Queue.unfinished_tasks (queue c) - Queue.qsize (queue c)
      /\ queue_ok (queue c').
Proof.
  intros Source Event R H c w item rest Hitems Hok.
  rewrite (consumer_step_front c w item rest Hitems Hok).
  destruct item as [[source events] last_id].
  pose proof (consumer_try_calls source events last_id
                (snd (logger GotGroupOfEvents w))) as Hcalls.
  destruct (consumer_try (source, events, last_id) _) as [[calls caught] w1].
  cbv zeta in Hcalls.
  eexists _, _, _, _. split; [reflexivity |]. split; [reflexivity |].
  assert (Hfilter : filter is_task_done calls = []).
  { destruct caught as [e|]; [destruct Hcalls as [-> | ->] | subst calls];
      destruct events; reflexivity. }
  split.
  { rewrite filter_app, Hfilter. reflexivity. }
  split.
  { apply last_snoc. }
  unfold queue_ok, Queue.qsize in *. simpl. rewrite Hitems in *.
  simpl length in *. repeat split; lia.
Qed.

Lemma C10_task_done_once_per_item_witness :
  let hooks := HistoryCrawler.hooks (H := Remote.discord) Demo.config in
  Queue.items (queue Demo.backlog)
    = [(Demo.general, Some [Demo.liked_message 500], Z.shiftl 500 22);
       (Demo.random, None, Demo.NOW_ID)]
  /\ queue_ok (queue Demo.backlog)
  /\ exists calls c' w',
       @consumer_step _ _ _ hooks Demo.backlog Demo.failing_world
       = Handled calls (Some StoreError) c' w'
       /\ length (filter is_task_done calls) = 1%nat.
Proof.
  cbv zeta.
  assert (Hitems : Queue.items (queue Demo.backlog)
    = [(Demo.general, Some [Demo.liked_message 500], Z.shiftl 500 22);
       (Demo.random, None, Demo.NOW_ID)]) by reflexivity.
  assert (Hok : queue_ok (queue Demo.backlog)) by (vm_compute; discriminate).
  split; [exact Hitems |]. split; [exact Hok |].
  destruct (C10_task_done_once_per_item Channel Message Remote.t
              (HistoryCrawler.hooks (H := Remote.discord) Demo.config)
              Demo.backlog Demo.failing_world _ _ Hitems Hok)
    as (calls & caught & c' & w' & Hstep & Hcaught & Hcount & _).
  exists calls, c', w'. split; [| exact Hcount].
  rewrite Hstep. f_equal. rewrite Hcaught. vm_compute. reflexivity.
Defined.

(** ** Hooks that work through the handle *)

Section Scoped.
Context {R : Type}.

Lemma scoped_ret {A} (a : A) : scoped (R := R) (ret a).
Proof. intros w. reflexivity. Qed.

Lemma scoped_raise {A} (e : exn) : scoped (R := R) (A := A) (raise e).
Proof. intros w. reflexivity. Qed.

Lemma scoped_bind {A B} (m : M (World R) A) (k : A -> M (World R) B) :
  scoped m -> (forall a, scoped (k a)) -> scoped (bind m k).
Proof.
  intros Hm Hk w. unfold bind. specialize (Hm w).
  destruct (m w) as [[a|e] w1]; simpl in *.
  - now rewrite Hk.
  - exact Hm.
Qed.

Lemma scoped_for_each {A S} (body : S -> A -> M (World R) S) (l : list A) :
  (forall s x, scoped (body s x)) -> forall s, scoped (for_each body l s).
Proof.
  intros Hbody. induction l as [|x l IH]; intros s; simpl.
  - apply scoped_ret.
  - apply scoped_bind; [apply Hbody | exact IH].
Qed.

Lemma scoped_logger (msg : LogMsg) : scoped (R := R) (logger msg).
Proof. intros w. reflexivity. Qed.

Lemma scoped_await {A} (call : R -> result A * R) : scoped (await call).
Proof. intros w. unfold await. now destruct (call (remote w)). Qed.

Lemma scoped_sql_execute stmt trans : scoped (R := R) (sql_execute stmt trans).
Proof. intros w. reflexivity. Qed.

Lemma HistoryCrawler_write_scoped `{Discord R} trans messages :
  scoped (HistoryCrawler.write trans messages).
Proof.
  unfold HistoryCrawler.write. apply scoped_for_each.
  intros t m. unfold HistoryCrawler.write_message.
  apply scoped_bind; [apply scoped_sql_execute |].
  intros t1. apply scoped_for_each.
  intros t2 r. unfold HistoryCrawler.write_reaction.
  apply scoped_bind; [apply scoped_await |]. intros users.
  apply scoped_bind; [apply scoped_sql_execute |]. intros t3.
  apply scoped_sql_execute.
Qed.

Lemma HistoryCrawler_update_scoped trans channel last_id :
  scoped (R := R) (HistoryCrawler.update trans channel last_id).
Proof. apply scoped_sql_execute. Qed.

End Scoped.

(** C1, as stated, fails where [write] raises: [update] is then not called
    at all.  Here the remote service is down, so [write] raises while it
    asks for the users of a reaction, after the message has been executed
    through the handle; the transaction is rolled back with no call of
    [update]. *)
Lemma C1_update_is_not_called_when_write_raises :
  let hooks := HistoryCrawler.hooks (H := Remote.discord) Demo.config in
  exists calls c' w',
    @consumer_step _ _ _ hooks Demo.backlog offline_world
    = Handled calls (Some RemoteError) c' w'
    /\ calls = [CallTransaction; CallWrite [Demo.liked_message 500];
                CallRollback; CallTaskDone]
    /\ (forall s l, ~ In (CallUpdate s l) calls)
    /\ store w' = store offline_world.
Proof.
  cbv zeta. eexists _, _, _. split; [vm_compute; reflexivity |].
  split; [reflexivity |]. split; [| reflexivity].
  intros s l [Hc | [Hc | [Hc | [Hc | []]]]]; discriminate.
Qed.

(** C1 (amended): for an item [(source, events, last_id)] at the front of
    the queue the consumer opens one transaction.  [write] is called in it
    exactly when events are present, with those events.  [update] is called
    in it, with the source and the cursor of the item, exactly when [write]
    has not raised.  What the turn leaves is fixed by what the two hooks
    hand back.  When [write] or [update] raises, the exception is caught
    and logged and the transaction is rolled back: nothing that was executed
    through its handle reaches the tables, which are as the hooks have left
    them.  When neither raises, the transaction is committed: everything
    that [write] and [update] have executed through the handle reaches the
    tables, together.  So what goes through the handle is committed whole or
    not at all.  In every case the item is gone from the queue and is not
    put back, and the loop goes on with the next one. *)
Theorem C1_consumer_transaction_all_or_nothing :
  forall (Source Event R : Type) (H : Hooks Source Event R)
         (c : Crawler Source Event) (w : World R)
         (source : Source) (events : option (list Event)) (last_id : Z)
         (rest : list (Item Source Event)),
    Queue.items (queue c) = (source, events, last_id) :: rest ->
    queue_ok (queue c) ->
    let w0 := snd (logger GotGroupOfEvents w) in
    exists calls caught c' w',
      consumer_step c w = Handled calls caught c' w'
      (* one transaction scope, opened first and closed before task_done *)
      /\ length (filter is_transaction calls) = 1%nat
      /\ (exists inner,
             calls = [CallTransaction] ++ inner
                       ++ [match caught with
                           | None => CallCommit
                           | Some _ => CallRollback
                           end; CallTaskDone]
             /\ forallb (fun call => is_write call || is_update call) inner
                = true)
      (* write: if and only if events are present, once *)
      /\ (forall es, In (CallWrite es) calls <-> events = Some es)
      /\ length (filter is_write calls)
         = match events with Some _ => 1%nat | None => 0%nat end
      (* update: with the carried cursor, if and only if write has not
         raised, once *)
      /\ (forall s l, In (CallUpdate s l) calls -> s = source /\ l = last_id)
      /\ (In (CallUpdate source last_id) calls
          <-> is_ok (fst (written events w0)) = true)
      /\ length (filter is_update calls)
         = (if is_ok (fst (written events w0)) then 1%nat else 0%nat)
      (* the outcome, by what the hooks hand back *)
      /\ match written events w0 with
         | (Raise e, w1) =>
             caught = Some e
             /\ w' = snd (logger ErrorDuringEventWrite w1)
             /\ store w' = store w1
         | (Ok trans1, w1) =>
             match update trans1 source last_id w1 with
             | (Raise e, w2) =>
                 caught = Some e
                 /\ w' = snd (logger ErrorDuringEventWrite w2)
                 /\ store w' = store w2
             | (Ok trans2, w2) =>
                 caught = None
                 /\ w' = set_store (Sql.commit trans2 (store w2)) w2
                 /\ store w' = fold_left Sql.apply trans2 (store w2)
             end
         end
      (* the item is not retried, and the loop goes on *)
      /\ Queue.items (queue c') = rest
      /\ progress c' = progress c
      /\ (forall n, consumer_loop (S n) c w = consumer_loop n c' w').
Proof.
  intros Source Event R H c w source events last_id rest Hitems Hok w0.
  pose proof (consumer_step_front c w _ rest Hitems Hok) as Hstep.
  fold w0 in Hstep.
  unfold consumer_try in Hstep. unfold written.
  destruct events as [es|].
  - destruct (write Sql.transaction es w0) as [[t1|e] w1] eqn:Ew.
    + destruct (update t1 source last_id w1) as [[t2|e] w2] eqn:Eu;
        simpl in Hstep.
      * eexists _, None, _, _. split; [exact Hstep |].
        split; [reflexivity |].
        split; [exists [CallWrite es; CallUpdate source last_id];
                split; reflexivity |].
        split.
        { intros es'. simpl. split.
          - intros [Hc | [Hc | [Hc | [Hc | [Hc | []]]]]]; congruence.
          - intros [= ->]. auto. }
        split; [reflexivity |].
        split.
        { intros s l. simpl.
          intros [Hc | [Hc | [Hc | [Hc | [Hc | []]]]]];
            try discriminate. injection Hc as <- <-. auto. }
        split; [simpl; split; auto |].
        split; [reflexivity |].
        split; [try rewrite Eu; repeat split |].
        split; [reflexivity |]. split; [reflexivity |].
        intros n. cbn [consumer_loop]. now rewrite Hstep.
      * eexists _, (Some e), _, _. split; [exact Hstep |].
        split; [reflexivity |].
        split; [exists [CallWrite es; CallUpdate source last_id];
                split; reflexivity |].
        split.
        { intros es'. simpl. split.
          - intros [Hc | [Hc | [Hc | [Hc | [Hc | []]]]]]; congruence.
          - intros [= ->]. auto. }
        split; [reflexivity |].
        split.
        { intros s l. simpl.
          intros [Hc | [Hc | [Hc | [Hc | [Hc | []]]]]];
            try discriminate. injection Hc as <- <-. auto. }
        split; [simpl; split; auto |].
        split; [reflexivity |].
        split; [try rewrite Eu; repeat split |].
        split; [reflexivity |]. split; [reflexivity |].
        intros n. cbn [consumer_loop]. now rewrite Hstep.
    + simpl in Hstep.
      eexists _, (Some e), _, _. split; [exact Hstep |].
      split; [reflexivity |].
      split; [exists [CallWrite es]; split; reflexivity |].
      split.
      { intros es'. simpl. split.
        - intros [Hc | [Hc | [Hc | [Hc | []]]]]; congruence.
        - intros [= ->]. auto. }
      split; [reflexivity |].
      split.
      { intros s l. simpl.
        intros [Hc | [Hc | [Hc | [Hc | []]]]]; discriminate. }
      split.
      { simpl. split; [| discriminate].
        intros [Hc | [Hc | [Hc | [Hc | []]]]]; discriminate. }
      split; [reflexivity |].
      split; [repeat split |].
      split; [reflexivity |]. split; [reflexivity |].
      intros n. cbn [consumer_loop]. now rewrite Hstep.
  - destruct (update Sql.transaction source last_id w0) as [[t2|e] w2] eqn:Eu;
      simpl in Hstep.
    + eexists _, None, _, _. split; [exact Hstep |].
      split; [reflexivity |].
      split; [exists [CallUpdate source last_id]; split; reflexivity |].
      split.
      { intros es'. simpl. split.
        - intros [Hc | [Hc | [Hc | [Hc | []]]]]; congruence.
        - discriminate. }
      split; [reflexivity |].
      split.
      { intros s l. simpl.
        intros [Hc | [Hc | [Hc | [Hc | []]]]];
          try discriminate. injection Hc as <- <-. auto. }
      split; [simpl; split; auto |].
      split; [reflexivity |].
      split; [try rewrite Eu; repeat split |].
      split; [reflexivity |]. split; [reflexivity |].
      intros n. cbn [consumer_loop]. now rewrite Hstep.
    + eexists _, (Some e), _, _. split; [exact Hstep |].
      split; [reflexivity |].
      split; [exists [CallUpdate source last_id]; split; reflexivity |].
      split.
      { intros es'. simpl. split.
        - intros [Hc | [Hc | [Hc | [Hc | []]]]]; congruence.
        - discriminate. }
      split; [reflexivity |].
      split.
      { intros s l. simpl.
        intros [Hc | [Hc | [Hc | [Hc | []]]]];
          try discriminate. injection Hc as <- <-. auto. }
      split; [simpl; split; auto |].
      split; [reflexivity |].
      split; [try rewrite Eu; repeat split |].
      split; [reflexivity |]. split; [reflexivity |].
      intros n. cbn [consumer_loop]. now rewrite Hstep.
Qed.

Lemma C1_consumer_transaction_all_or_nothing_witness :
  let hooks := HistoryCrawler.hooks (H := Remote.discord) Demo.config in
  Queue.items (queue Demo.backlog)
    = [(Demo.general, Some [Demo.liked_message 500], Z.shiftl 500 22);
       (Demo.random, None, Demo.NOW_ID)]
  /\ queue_ok (queue Demo.backlog)
  /\ exists calls c' w',
       @consumer_step _ _ _ hooks Demo.backlog Demo.world
       = Handled calls None c' w'
       /\ length (filter is_transaction calls) = 1%nat
       /\ In (CallUpdate Demo.general (Z.shiftl 500 22)) calls
       /\ store w'
          = Sql.commit
              [Sql.InsertMessage (Demo.liked_message 500);
               Sql.UpsertEmoji 128077;
               Sql.InsertReaction (Demo.thumbs_up 500) [42];
               Sql.UpdateChannelCrawl 7 (Z.shiftl 500 22)]
              (store Demo.world)
       /\ Sql.messages (store w') !! Z.shiftl 500 22
          = Some (Demo.liked_message 500)
       /\ persisted_channel_cursor w' Demo.general = Some (Z.shiftl 500 22).
Proof.
  cbv zeta.
  assert (Hitems : Queue.items (queue Demo.backlog)
    = [(Demo.general, Some [Demo.liked_message 500], Z.shiftl 500 22);
       (Demo.random, None, Demo.NOW_ID)]) by reflexivity.
  assert (Hok : queue_ok (queue Demo.backlog)) by (vm_compute; discriminate).
  split; [exact Hitems |]. split; [exact Hok |].
  destruct (C1_consumer_transaction_all_or_nothing Channel Message Remote.t
              (HistoryCrawler.hooks (H := Remote.discord) Demo.config)
              Demo.backlog Demo.world _ _ _ _ Hitems Hok)
    as (calls & caught & c' & w' & Hstep & Hone & _ & _ & _ & _ & Hupd & _
        & Hout & _).
  vm_compute in Hout. destruct Hout as (Hcaught & Hworld & _).
  subst caught w'.
  eexists calls, c', _. split; [exact Hstep |]. split; [exact Hone |].
  split; [apply Hupd; reflexivity |].
  vm_compute. repeat split.
Defined.

(** What that turn comes to: [write] went through, [update] was rejected,
    and neither the message, nor its reaction, nor the cursor is in the
    store. *)
Example consumer_rolls_back_the_page :
  let hooks := HistoryCrawler.hooks (H := Remote.discord) Demo.config in
  exists c' w',
    @consumer_step _ _ _ hooks Demo.backlog Demo.failing_world
    = Handled [CallTransaction; CallWrite [Demo.liked_message 500];
               CallUpdate Demo.general (Z.shiftl 500 22); CallRollback;
               CallTaskDone] (Some StoreError) c' w'
    /\ store w' = store Demo.failing_world
    /\ log w' = [GotGroupOfEvents; ErrorDuringEventWrite].
Proof. cbv zeta. eexists _, _. vm_compute. repeat split. Qed.

(** And on a store that rejects nothing both are there. *)
Example consumer_commits_the_page :
  let hooks := HistoryCrawler.hooks (H := Remote.discord) Demo.config in
  exists calls c' w',
    @consumer_step _ _ _ hooks Demo.backlog Demo.world
    = Handled calls None c' w'
    /\ Sql.messages (store w') !! Z.shiftl 500 22
       = Some (Demo.liked_message 500)
    /\ Sql.reactions (store w') = [(Demo.thumbs_up 500, [42])]
    /\ persisted_channel_cursor w' Demo.general = Some (Z.shiftl 500 22).
Proof. cbv zeta. eexists _, _, _. vm_compute. repeat split. Qed.

(** ** [AuditLogCrawler.write] *)

Lemma AuditLogCrawler_write_keeps_handle {R}
    (insert_1 : AuditLogEntry -> M (World R) unit) trans entries (w : World R) :
  match AuditLogCrawler.write insert_1 trans entries w with
  | (Ok trans', _) => trans' = trans
  | (Raise _, _) => True
  end.
Proof.
  unfold AuditLogCrawler.write. revert w.
  induction entries as [|entry entries IH]; intros w; simpl.
  - reflexivity.
  - unfold bind at 1. unfold bind at 1.
    destruct (insert_1 entry w) as [[[]|e] w1]; [| exact I].
    unfold ret at 1. apply IH.
Qed.

(** C6, on the code: [AuditLogCrawler.write] calls
    [self.sql.insert_audit_log_entry(entry)] without the transaction it was
    given.  Whatever the store does with that call, the handle comes back
    from [write] as it went in: no insertion is part of the transaction.
    With a store method declared [(trans, entry)] the call is a
    [TypeError]: the page is not persisted, and the cursor update of the
    item is lost with it.  With a store method that inserts at once, the
    entry stays in the store when the transaction of the item is rolled
    back. *)
Theorem C6_audit_log_write_is_outside_the_transaction :
  (forall (R : Type) (insert_1 : AuditLogEntry -> M (World R) unit)
          (trans : Sql.Trans) (entries : list AuditLogEntry) (w : World R),
      match AuditLogCrawler.write insert_1 trans entries w with
      | (Ok trans', _) => trans' = trans
      | (Raise _, _) => True
      end)
  /\ (let hooks := AuditLogCrawler.hooks (H := Remote.discord) Demo.config
                     AuditLogCrawler.missing_argument in
      exists c' w',
        @consumer_step _ _ _ hooks Demo.audit_backlog Demo.world
        = Handled [CallTransaction; CallWrite [Demo.entry 300];
                   CallRollback; CallTaskDone] (Some TypeError) c' w'
        /\ store w' = store Demo.world
        /\ Sql.audit_log (store w') !! entry_id (Demo.entry 300) = None
        /\ Sql.audit_log_crawl (store w') !! 1 = Some 0)
  /\ (let hooks := AuditLogCrawler.hooks (H := Remote.discord) Demo.config
                     AuditLogCrawler.autocommit in
      exists c' w',
        @consumer_step _ _ _ hooks Demo.audit_backlog Demo.failing_world
        = Handled [CallTransaction; CallWrite [Demo.entry 300];
                   CallUpdate Demo.guild (Z.shiftl 300 22); CallRollback;
                   CallTaskDone] (Some StoreError) c' w'
        /\ Sql.audit_log (store w') !! entry_id (Demo.entry 300)
           = Some (Demo.entry 300)
        /\ Sql.audit_log_crawl (store w') !! 1 = Some 0).
Proof.
  split; [intros; apply AuditLogCrawler_write_keeps_handle |].
  split; cbv zeta; eexists _, _; vm_compute; repeat split.
Qed.

(** ** The topology hooks of [HistoryCrawler] *)

Lemma channel_eqb_refl (c : Channel) : channel_eqb c c = true.
Proof. apply Z.eqb_refl. Qed.

Lemma channel_eqb_euclidean : euclidean channel_eqb.
Proof.
  intros a b c Hab Hac. unfold channel_eqb in *.
  apply Z.eqb_eq in Hab, Hac. apply Z.eqb_eq. congruence.
Qed.

Lemma channel_never_equals_int (progress : list (Channel * option Z)) (i : Z) :
  existsb (fun kv => channel_eqb_int (fst kv) i) progress = false.
Proof. induction progress as [|kv progress IH]; [reflexivity | exact IH]. Qed.

Section TopologyFacts.
Context {R : Type}.
Variable config : Config.

(** [_create_progress] when the store takes the new row. *)
Lemma create_progress_ok channel progress (w : World R) :
  Sql.rejects (store w) (Sql.InsertChannelCrawl (channel_id channel) 0)
    = false ->
  HistoryCrawler._create_progress channel (progress, w)
  = (Ok tt,
     (Dict.set channel_eqb channel None progress,
      set_store (Sql.apply (store w)
                   (Sql.InsertChannelCrawl (channel_id channel) 0)) w)).
Proof.
  intros Hrej. unfold HistoryCrawler._create_progress,
    HistoryCrawler.modify_progress, HistoryCrawler.in_world,
    with_transaction, insert_channel_crawl. run_monad.
  unfold Sql.execute. rewrite Hrej. reflexivity.
Qed.

(** In [init], a readable channel without a record gets the cursor 0 in
    the mapping, and a row with 0. *)
Lemma init_channel_fresh channel progress trans (w : World R) :
  read_message_history channel = true ->
  Sql.channel_crawl (Sql.commit trans (store w)) !! channel_id channel
    = None ->
  Sql.rejects (store w) (Sql.InsertChannelCrawl (channel_id channel) 0)
    = false ->
  HistoryCrawler.init_channel (progress, trans) channel w
  = (Ok (Dict.set channel_eqb channel (Some 0) progress,
         trans ++ [Sql.InsertChannelCrawl (channel_id channel) 0]), w).
Proof.
  intros Hperm Hnone Hrej. unfold HistoryCrawler.init_channel.
  rewrite Hperm. unfold lookup_channel_crawl, insert_channel_crawl.
  run_monad. rewrite Hnone. simpl. unfold Sql.execute. rewrite Hrej.
  reflexivity.
Qed.

End TopologyFacts.

(** C5, on the code.  The creation hook, for an eligible channel that is
    not tracked, does insert the row with cursor 0, and enters the channel
    in the progress mapping with [None], not with 0 as [init] does; [read]
    raises on [None] before it asks anything, so each round only logs an
    error for the channel and leaves the entry as it is.  The update hook
    returns at once when the channel was not eligible before: a channel
    that has become eligible is not entered at all.  And when the channel
    was eligible and still is, the test [after.id in self.progress] never
    holds, so the entry of a tracked channel is overwritten with [None]. *)
Theorem C5_new_channel_is_not_given_cursor_0 :
  forall (R : Type) (D : Discord R) (config : Config) (NOW_ID : Z)
         (channel before after : Channel)
         (progress : list (Channel * option Z)) (w : World R),
    (* the creation hook *)
    (HistoryCrawler._channel_ok config channel = true ->
     Dict.contains channel_eqb channel progress = false ->
     Sql.rejects (store w) (Sql.InsertChannelCrawl (channel_id channel) 0)
       = false ->
     exists progress' w',
       HistoryCrawler._channel_create_hook config channel (progress, w)
       = (Ok tt, (progress', w'))
       /\ progress' = progress ++ [(channel, None)]
       /\ Dict.get channel_eqb channel progress' = Some None
       /\ persisted_channel_cursor w' channel = Some 0)
    (* what [init] does for a channel without a record *)
    /\ (forall trans,
          read_message_history channel = true ->
          Sql.channel_crawl (Sql.commit trans (store w)) !! channel_id channel
            = None ->
          Sql.rejects (store w)
            (Sql.InsertChannelCrawl (channel_id channel) 0) = false ->
          HistoryCrawler.init_channel (progress, trans) channel w
          = (Ok (Dict.set channel_eqb channel (Some 0) progress,
                 trans ++ [Sql.InsertChannelCrawl (channel_id channel) 0]),
             w))
    (* a round on an entry [None] *)
    /\ (forall done c,
          @producer_step _ _ _ (HistoryCrawler.hooks config) NOW_ID
            (channel, None) (done, c, w)
          = (done, c, snd (logger ErrorReadingEvents w)))
    (* the update hook, the channel not eligible before *)
    /\ (HistoryCrawler._channel_ok config before = false ->
        HistoryCrawler._channel_update_hook config before after (progress, w)
        = (Ok tt, (progress, w)))
    (* the update hook, the channel eligible before and after *)
    /\ (HistoryCrawler._channel_ok config before = true ->
        HistoryCrawler._channel_ok config after = true ->
        Sql.rejects (store w) (Sql.InsertChannelCrawl (channel_id after) 0)
          = false ->
        fst (snd (HistoryCrawler._channel_update_hook config before after
                    (progress, w)))
        = Dict.set channel_eqb after None progress).
Proof.
  intros R D config NOW_ID channel before after progress w.
  split; [| split; [| split; [| split]]].
  - intros Hok Hnew Hrej.
    unfold HistoryCrawler._channel_create_hook, HistoryCrawler.get_progress.
    unfold bind at 1. rewrite Hok, Hnew. simpl negb. cbn [orb].
    unfold bind at 1. unfold HistoryCrawler.in_world at 1. simpl.
    rewrite create_progress_ok by exact Hrej.
    eexists _, _. split; [reflexivity |].
    assert (Hset : Dict.set channel_eqb channel None progress
                   = progress ++ [(channel, None)]).
    { unfold Dict.contains in Hnew. clear -Hnew.
      induction progress as [|[k v] progress IH]; simpl in *; [reflexivity |].
      destruct (channel_eqb k channel); [discriminate |].
      now rewrite IH. }
    split; [exact Hset |]. split.
    + apply dict_get_set_same.
      * apply channel_eqb_euclidean.
      * apply channel_eqb_refl.
    + unfold persisted_channel_cursor. simpl. apply lookup_insert_eq.
  - intros trans. apply init_channel_fresh.
  - intros done c. apply producer_step_read_raises with (e := TypeError).
    reflexivity.
  - intros Hnot. unfold HistoryCrawler._channel_update_hook.
    now rewrite Hnot.
  - intros Hb Ha Hrej. unfold HistoryCrawler._channel_update_hook.
    rewrite Hb, Ha. cbn [negb].
    unfold HistoryCrawler.get_progress, bind. cbv beta iota.
    rewrite channel_never_equals_int.
    unfold HistoryCrawler.in_world at 1. cbn [logger]. cbv beta iota.
    rewrite create_progress_ok by exact Hrej. reflexivity.
Qed.

Lemma C5_new_channel_is_not_given_cursor_0_witness :
  let w := Demo.world in
  let progress := progress Demo.crawler in
  HistoryCrawler._channel_ok Demo.config Demo.secret_opened = true
  /\ HistoryCrawler._channel_ok Demo.config Demo.secret = false
  /\ Dict.contains channel_eqb Demo.secret_opened progress = false
  /\ (exists progress' w',
        HistoryCrawler._channel_create_hook Demo.config
          Demo.secret_opened (progress, w) = (Ok tt, (progress', w'))
        /\ progress' = progress ++ [(Demo.secret_opened, None)]
        /\ Dict.get channel_eqb Demo.secret_opened progress' = Some None
        /\ persisted_channel_cursor w' Demo.secret_opened = Some 0)
  /\ HistoryCrawler._channel_update_hook Demo.config Demo.secret
       Demo.secret_opened (progress, w) = (Ok tt, (progress, w)).
Proof.
  cbv zeta.
  pose proof (C5_new_channel_is_not_given_cursor_0 Remote.t Remote.discord
                Demo.config Demo.NOW_ID Demo.secret_opened
                Demo.secret Demo.secret_opened
                (progress Demo.crawler) Demo.world)
    as (Hcreate & _ & _ & Hupdate & _).
  split; [reflexivity |]. split; [reflexivity |]. split; [reflexivity |].
  split.
  - apply Hcreate; reflexivity.
  - apply Hupdate. reflexivity.
Defined.

(** ** The embedding at work *)

(** The [try] statement of the consumer is the [with] statement around
    [write] and [update], with its calls noted. *)
Lemma consumer_try_with_transaction {Source Event R}
    `{Hooks Source Event R} (item : Item Source Event) (w : World R) :
  let '(_, caught, w1) := consumer_try item w in
  match with_transaction
          (fun trans => trans' <- consumer_transaction item trans ;;
                        ret (tt, trans')) w with
  | (Ok _, w') => caught = None /\ w1 = w'
  | (Raise e, w') =>
      caught = Some e /\ w1 = snd (logger ErrorDuringEventWrite w')
  end.
Proof.
  destruct item as [[source events] last_id].
  unfold consumer_try, with_transaction, consumer_transaction, bind, ret.
  destruct events as [es|].
  - destruct (write Sql.transaction es w) as [[t1|e] w1]; [| now split].
    destruct (update t1 source last_id w1) as [[t2|e] w2]; now split.
  - destruct (update Sql.transaction source last_id w) as [[t2|e] w2];
      now split.
Qed.

(** The producer keeps the queue's count of unfinished tasks right. *)
Lemma producer_step_queue_ok {Source Event R} `{Hooks Source Event R}
    (NOW_ID : Z) pair done (c : Crawler Source Event) (w : World R) :
  queue_ok (queue c) ->
  queue_ok (queue (snd (fst (producer_step NOW_ID pair (done, c, w))))).
Proof.
  intros Hok. destruct pair as [source last_id]. unfold producer_step.
  destruct (read source last_id w) as [[[events|]|e] w1]; simpl.
  - destruct (get_last_id events); simpl; [now apply queue_ok_put | exact Hok].
  - now apply queue_ok_put.
  - exact Hok.
Qed.

(** [init] on the example: the two readable channels of the guild, with
    the cursors the store holds for them. *)
Example init_seeds_the_readable_channels :
  HistoryCrawler.init (H := Remote.discord) Demo.config [] Demo.world
  = (Ok [(Demo.general, Some 0); (Demo.random, Some 0)], Demo.world).
Proof. vm_compute. reflexivity. Qed.

(** A gap of the interval set, from the spec's first example: the walk
    from 30 takes in [[25,30]] and stops at [[10,20]]. *)
Example find_first_hole_gap :
  MessageHistory.find_first_hole
    (MessageHistory.make [Range.make 10 20; Range.make 25 30] (Some 5)) 30
  = Some 25.
Proof. reflexivity. Qed.

(** ** Further properties of [MessageHistory] *)

(** Where the walk ends: at the value it started with, or at the start of
    an interval it has taken in. *)
Lemma walk_result start rs current :
  MessageHistory.walk start rs current = current
  \/ exists r, In r rs /\ start <= Range.max r
               /\ MessageHistory.walk start rs current = Range.min r.
Proof.
  revert current. induction rs as [|r rs IH]; intros current; simpl.
  - now left.
  - destruct (Z.gtb_spec start (Range.max r)) as [Hgt | Hle].
    + now left.
    + right. destruct (IH (Range.min r)) as [Heq | (r' & Hin & Hmax & Heq)].
      * exists r. split; [now left |]. split; [lia | exact Heq].
      * exists r'. split; [now right |]. split; [exact Hmax | exact Heq].
Qed.

Lemma boundary_result (h : MessageHistory.t) (start : Z) :
  MessageHistory.boundary h start = start
  \/ exists r, In r (MessageHistory.ranges h) /\ start <= Range.max r
               /\ MessageHistory.boundary h start = Range.min r.
Proof.
  unfold MessageHistory.boundary.
  destruct (walk_result start (rev (MessageHistory.ranges h)) start)
    as [Heq | (r & Hin & Hmax & Heq)].
  - now left.
  - right. exists r. split; [now apply in_rev | auto].
Qed.

(** X1: what [find_first_hole(start)] can return.  A hole it reports is never
    above [start]: it is [start] itself, or the start of an interval that
    begins below [start] and ends at or above it.  And it reports no hole
    only with an origin [first] that is set and is at or above the boundary
    the walk has reached. *)
Theorem find_first_hole_result (h : MessageHistory.t) (start : Z) :
  (forall x, MessageHistory.find_first_hole h start = Some x ->
     x = start
     \/ (x < start
         /\ exists r, In r (MessageHistory.ranges h)
                      /\ Range.min r = x /\ start <= Range.max r))
  /\ (MessageHistory.find_first_hole h start = None ->
      exists f, MessageHistory.first h = Some f
                /\ MessageHistory.boundary h start <= f
                /\ (start <= f
                    \/ exists r, In r (MessageHistory.ranges h)
                                 /\ Range.min r <= f
                                 /\ start <= Range.max r)).
Proof.
  rewrite find_first_hole_cases. split.
  - intros x Hx.
    assert (Hmin : x = Z.min start (MessageHistory.boundary h start)).
    { destruct (MessageHistory.first h) as [f|].
      - destruct (f <? MessageHistory.boundary h start);
          [now injection Hx | discriminate].
      - now injection Hx. }
    destruct (boundary_result h start) as [Heq | (r & Hin & Hmax & Heq)].
    + left. lia.
    + destruct (Z.le_gt_cases start (Range.min r)).
      * left. lia.
      * right. split; [lia |]. exists r. split; [exact Hin |].
        split; [lia | exact Hmax].
  - intros Hnone. destruct (MessageHistory.first h) as [f|]; [| discriminate].
    destruct (Z.ltb_spec f (MessageHistory.boundary h start)) as [Hlt | Hge];
      [discriminate |].
    exists f. split; [reflexivity |]. split; [exact Hge |].
    destruct (boundary_result h start) as [Heq | (r & Hin & Hmax & Heq)].
    + left. lia.
    + right. exists r. split; [exact Hin |]. split; [lia | exact Hmax].
Qed.

Lemma find_first_hole_result_witness :
  let h := MessageHistory.make [Range.make 10 20; Range.make 25 30] (Some 5) in
  MessageHistory.find_first_hole h 27 = Some 25
  /\ (25 = 27
      \/ (25 < 27
          /\ exists r, In r (MessageHistory.ranges h)
                       /\ Range.min r = 25 /\ 27 <= Range.max r)).
Proof.
  cbv zeta. split; [reflexivity |].
  exact (proj1 (find_first_hole_result
           (MessageHistory.make [Range.make 10 20; Range.make 25 30] (Some 5))
           27) 25 eq_refl).
Defined.

Lemma walk_stops start rs current :
  (forall r, In r rs -> Range.max r < start) ->
  MessageHistory.walk start rs current = current.
Proof.
  intros Hbelow. destruct rs as [|r rs]; simpl; [reflexivity |].
  destruct (Z.gtb_spec start (Range.max r)) as [Hgt | Hle]; [reflexivity |].
  specialize (Hbelow r (or_introl eq_refl)). lia.
Qed.

Lemma ascending_snoc rs a :
  ascending (rs ++ [a]) ->
  ascending rs /\ forall r, In r rs -> Range.max r < Range.min a.
Proof.
  induction rs as [|r rs IH]; simpl.
  - intros _. split; [exact I | intros ? []].
  - intros [Hall Hasc]. destruct (IH Hasc) as [Hrs Hlast].
    rewrite Forall_app in Hall. destruct Hall as [Hall Ha].
    split; [split; assumption |].
    intros r' [<- | Hin]; [| now apply Hlast].
    apply Forall_cons_iff in Ha. tauto.
Qed.

Lemma range_min_le_max (r : Range.t) : Range.min r <= Range.max r.
Proof. unfold Range.min, Range.max. lia. Qed.

Lemma walk_covered start rs r :
  ascending rs -> In r rs -> covers r start ->
  forall current, MessageHistory.walk start (rev rs) current = Range.min r.
Proof.
  induction rs as [|a rs IH] using rev_ind; intros Hasc Hin [Hlo Hhi] current.
  - destruct Hin.
  - apply ascending_snoc in Hasc as [Hasc Hlast].
    rewrite rev_app_distr. simpl.
    pose proof (range_min_le_max a) as Ha.
    apply in_app_or in Hin as [Hin | [<- | []]].
    + pose proof (Hlast r Hin) as Hra.
      destruct (Z.gtb_spec start (Range.max a)) as [Hgt | Hle]; [lia |].
      apply IH; [exact Hasc | exact Hin | split; assumption].
    + destruct (Z.gtb_spec start (Range.max a)) as [Hgt | Hle]; [lia |].
      apply walk_stops. intros r' Hr'. apply in_rev in Hr'.
      specialize (Hlast r' Hr'). lia.
Qed.

(** X2: on intervals in ascending order and apart from each other, a start
    point that lies in an interval is sent to the start of that interval:
    the walk takes in the intervals above and that one, and stops below it.
    The hole reported is then the start of the interval, unless [first] is
    set and is at or above it. *)
Theorem find_first_hole_inside_interval (h : MessageHistory.t) (start : Z)
    (r : Range.t) :
  ascending (MessageHistory.ranges h) ->
  In r (MessageHistory.ranges h) ->
  covers r start ->
  MessageHistory.boundary h start = Range.min r
  /\ MessageHistory.find_first_hole h start
     = match MessageHistory.first h with
       | None => Some (Range.min r)
       | Some f => if f <? Range.min r then Some (Range.min r) else None
       end.
Proof.
  intros Hasc Hin Hcov.
  assert (Hb : MessageHistory.boundary h start = Range.min r)
    by (unfold MessageHistory.boundary; now apply walk_covered).
  split; [exact Hb |].
  rewrite find_first_hole_cases, Hb.
  destruct Hcov as [Hlo _]. rewrite Z.min_r by exact Hlo. reflexivity.
Qed.

Lemma find_first_hole_inside_interval_witness :
  let h := MessageHistory.make
             [Range.make 10 20; Range.make 25 30; Range.make 40 50] (Some 5) in
  ascending (MessageHistory.ranges h)
  /\ In (Range.make 25 30) (MessageHistory.ranges h)
  /\ covers (Range.make 25 30) 28
  /\ MessageHistory.find_first_hole h 28 = Some 25.
Proof.
  cbv zeta.
  assert (Hasc : ascending [Range.make 10 20; Range.make 25 30;
                            Range.make 40 50]).
  { simpl. repeat constructor. }
  assert (Hin : In (Range.make 25 30)
                  [Range.make 10 20; Range.make 25 30; Range.make 40 50])
    by (simpl; auto).
  assert (Hcov : covers (Range.make 25 30) 28) by (vm_compute; split; discriminate).
  split; [exact Hasc |]. split; [exact Hin |]. split; [exact Hcov |].
  exact (proj2 (find_first_hole_inside_interval
           (MessageHistory.make
              [Range.make 10 20; Range.make 25 30; Range.make 40 50] (Some 5))
           28 (Range.make 25 30) Hasc Hin Hcov)).
Defined.

(** X3: a start point that lies in no interval is never moved: the answer is
    [start] or no hole at all. *)
Theorem find_first_hole_outside_intervals (h : MessageHistory.t) (start : Z) :
  (forall r, In r (MessageHistory.ranges h) -> ~ covers r start) ->
  start <= MessageHistory.boundary h start
  /\ (MessageHistory.find_first_hole h start = Some start
      \/ MessageHistory.find_first_hole h start = None).
Proof.
  intros Hout.
  assert (Hb : start <= MessageHistory.boundary h start).
  { destruct (boundary_result h start) as [Heq | (r & Hin & Hmax & Heq)];
      [lia |].
    rewrite Heq. specialize (Hout r Hin). unfold covers in Hout. lia. }
  split; [exact Hb |].
  rewrite find_first_hole_cases, Z.min_l by exact Hb.
  destruct (MessageHistory.first h) as [f|]; [| now left].
  destruct (f <? MessageHistory.boundary h start); [now left | now right].
Qed.

Lemma find_first_hole_outside_intervals_witness :
  let h := MessageHistory.make [Range.make 10 20; Range.make 25 30] (Some 5) in
  (forall r, In r (MessageHistory.ranges h) -> ~ covers r 22)
  /\ MessageHistory.find_first_hole h 22 = Some 22.
Proof.
  cbv zeta.
  assert (Hout : forall r, In r [Range.make 10 20; Range.make 25 30] ->
                           ~ covers r 22).
  { intros r [<- | [<- | []]]; unfold covers, Range.min, Range.max; simpl; lia. }
  split; [exact Hout |].
  destruct (proj2 (find_first_hole_outside_intervals
              (MessageHistory.make [Range.make 10 20; Range.make 25 30]
                 (Some 5)) 22 Hout)) as [Hsome | Hnone].
  - exact Hsome.
  - discriminate Hnone.
Defined.

(** X4: [to_ranges] loses nothing: the two lists are as long as the interval
    list, and pairing them up again gives the intervals back, in order. *)
Theorem to_ranges_round_trip (h : MessageHistory.t) :
  let (starts, ends) := MessageHistory.to_ranges h in
  length starts = length (MessageHistory.ranges h)
  /\ length ends = length (MessageHistory.ranges h)
  /\ map (fun p => Range.make (fst p) (snd p)) (combine starts ends)
     = MessageHistory.ranges h.
Proof.
  unfold MessageHistory.to_ranges.
  split; [apply length_map |]. split; [apply length_map |].
  induction (MessageHistory.ranges h) as [|[s e] rs IH]; simpl.
  - reflexivity.
  - now rewrite IH.
Qed.

(** ** Further properties of the producer and the consumer *)

Section TemplateFacts.
Context {Source Event R : Type} `{Hooks Source Event R}.
Variable NOW_ID : Z.

Lemma dict_set_absent {K V} (eqb : K -> K -> bool) (k : K) (v : V)
    (d : list (K * V)) :
  Dict.contains eqb k d = false -> Dict.set eqb k v d = d ++ [(k, v)].
Proof.
  unfold Dict.contains.
  induction d as [|[k' v'] d IH]; simpl; [reflexivity |].
  destruct (eqb k' k); [discriminate |]. intros Hd. now rewrite IH.
Qed.

Lemma dict_set_keys {K V} (eqb : K -> K -> bool) (k : K) (v : V)
    (d : list (K * V)) :
  Dict.contains eqb k d = true -> map fst (Dict.set eqb k v d) = map fst d.
Proof.
  unfold Dict.contains.
  induction d as [|[k' v'] d IH]; simpl; [discriminate |].
  destruct (eqb k' k) eqn:E; simpl; [reflexivity |].
  intros Hd. now rewrite IH.
Qed.

Lemma dict_contains_key {K V} (eqb : K -> K -> bool) (k : K)
    (d : list (K * V)) :
  (forall a, eqb a a = true) -> In k (map fst d) ->
  Dict.contains eqb k d = true.
Proof.
  intros Hrefl. unfold Dict.contains.
  induction d as [|[k' v'] d IH]; simpl; [intros [] |].
  intros [-> | Hin].
  - now rewrite Hrefl.
  - destruct (eqb k' k); [reflexivity | now apply IH].
Qed.

(** What one step of the producer does to the crawler object: nothing, or
    one item at the back of the queue with its cursor entered in the
    mapping. *)
Lemma producer_step_effect pair done c (w : World R) :
  let c' := snd (fst (producer_step NOW_ID pair (done, c, w))) in
  c' = c
  \/ exists events last_id,
       item_ok NOW_ID (fst pair, events, last_id)
       /\ progress c'
          = Dict.set source_eqb (fst pair) (Some last_id) (progress c)
       /\ queue c' = Queue.put (fst pair, events, last_id) (queue c).
Proof.
  destruct pair as [source cursor]. unfold producer_step. simpl.
  destruct (read source cursor w) as [[[events|]|e] w1]; simpl.
  - destruct events as [|ev events].
    + now left.
    + destruct (get_last_id_max ev events) as (m & Hm & _). rewrite Hm. simpl.
      right. exists (Some (ev :: events)), m.
      split; [split; [discriminate | exact Hm] |]. split; reflexivity.
  - right. exists None, NOW_ID. repeat split.
  - now left.
Qed.


(** X6: a round changes cursors, not the set of sources: with a snapshot taken
    from the mapping itself, the keys of the mapping are after the round
    what they were, in the same order. *)
Theorem producer_round_keeps_the_sources (config : Config)
    (c : Crawler Source Event) (w : World R) :
  (forall s : Source, source_eqb s s = true) ->
  map fst (progress (snd (fst (producer_round NOW_ID config c w))))
  = map fst (progress c).
Proof.
  intros Hrefl. unfold producer_round.
  assert (Hfold : forall pairs done c0 w0,
    (forall p, In p pairs -> In (fst p) (map fst (progress c0))) ->
    map fst (progress (snd (fst
      (fold_left (fun st pair => producer_step NOW_ID pair st) pairs
         (done, c0, w0)))))
    = map fst (progress c0)).
  { induction pairs as [|pair pairs IH]; intros done c0 w0 Hsub;
      cbn [fold_left]; [reflexivity |].
    pose proof (producer_step_effect pair done c0 w0) as Heff.
    destruct (producer_step NOW_ID pair (done, c0, w0)) as [[d1 c1] w1].
    cbv zeta in Heff. simpl in Heff.
    assert (Hkeys : map fst (progress c1) = map fst (progress c0)).
    { destruct Heff as [-> | (events & last_id & _ & Hp & _)];
        [reflexivity |].
      rewrite Hp. apply dict_set_keys. apply dict_contains_key; [exact Hrefl |].
      apply Hsub. now left. }
    rewrite IH; [exact Hkeys |].
    intros p Hp. rewrite Hkeys. apply Hsub. now right. }
  specialize (Hfold (progress c) false c w).
  destruct (fold_left _ (progress c) (false, c, w)) as [[done c1] w1].
  simpl in Hfold.
  assert (Hk : map fst (progress c1) = map fst (progress c)).
  { apply Hfold. intros p Hp. now apply in_map. }
  destruct done; exact Hk.
Qed.

(** X7: but a source that a topology hook has taken out of the mapping after
    the snapshot was made is put back by the producer when its [read]
    succeeds: the step enters it again, at the end of the mapping, and
    queues its item. *)
Theorem producer_step_puts_a_removed_source_back source cursor done c
    (w w1 : World R) (page : option (list Event)) :
  Dict.contains source_eqb source (progress c) = false ->
  read source cursor w = (Ok page, w1) ->
  page <> Some [] ->
  exists last_id,
    item_ok NOW_ID (source, page, last_id)
    /\ producer_step NOW_ID (source, cursor) (done, c, w)
       = (match page with None => true | Some _ => done end,
          {| progress := progress c ++ [(source, Some last_id)];
             queue := Queue.put (source, page, last_id) (queue c) |}, w1).
Proof.
  intros Habsent Hread Hpage. unfold producer_step. rewrite Hread.
  destruct page as [[|ev events]|].
  - now contradiction Hpage.
  - destruct (get_last_id_max ev events) as (m & Hm & _). rewrite Hm.
    exists m. split; [split; [discriminate | exact Hm] |].
    now rewrite dict_set_absent.
  - exists NOW_ID. split; [reflexivity |]. now rewrite dict_set_absent.
Qed.

End TemplateFacts.


Lemma producer_round_keeps_the_sources_witness :
  let hooks := HistoryCrawler.hooks (H := Remote.discord) Demo.config in
  (forall s : Channel, channel_eqb s s = true)
  /\ map fst (progress (snd (fst
       (@producer_round _ _ _ hooks Demo.NOW_ID Demo.config Demo.crawler
          Demo.world))))
     = [Demo.general; Demo.random].
Proof.
  cbv zeta. split; [exact channel_eqb_refl |].
  exact (producer_round_keeps_the_sources (H := HistoryCrawler.hooks
           (H := Remote.discord) Demo.config) Demo.NOW_ID Demo.config
           Demo.crawler Demo.world channel_eqb_refl).
Defined.

Lemma producer_step_puts_a_removed_source_back_witness :
  let hooks := HistoryCrawler.hooks (H := Remote.discord) Demo.config in
  let c := {| progress := [(Demo.random, Some 0)];
              queue := Queue.create 8 |} in
  Dict.contains channel_eqb Demo.general (progress c) = false
  /\ exists last_id w1,
       @producer_step _ _ _ hooks Demo.NOW_ID (Demo.general, Some 0)
         (false, c, Demo.world)
       = (false,
          {| progress := [(Demo.random, Some 0); (Demo.general, Some last_id)];
             queue := Queue.put
                        (Demo.general,
                         Some [Demo.message 500; Demo.message 2000], last_id)
                        (Queue.create 8) |}, w1).
Proof.
  cbv zeta. split; [reflexivity |].
  destruct (producer_step_puts_a_removed_source_back
              (H := HistoryCrawler.hooks (H := Remote.discord) Demo.config)
              Demo.NOW_ID Demo.general (Some 0) false
              {| progress := [(Demo.random, Some 0)];
                 queue := Queue.create 8 |}
              Demo.world _ (Some [Demo.message 500; Demo.message 2000])
              eq_refl eq_refl ltac:(discriminate))
    as (last_id & _ & Hstep).
  eexists last_id, _. exact Hstep.
Defined.

Section ScheduleFacts.
Context {Source Event R : Type} `{Hooks Source Event R}.
Variable NOW_ID : Z.

Lemma settled_producer_step pair done c (w : World R) :
  settled NOW_ID c ->
  settled NOW_ID (snd (fst (producer_step NOW_ID pair (done, c, w)))).
Proof.
  intros [Hcount Hitems].
  destruct (producer_step_effect NOW_ID pair done c w)
    as [-> | (events & last_id & Hitem & _ & Hq)]; [now split |].
  unfold settled. rewrite Hq. unfold Queue.put, Queue.qsize in *. simpl.
  split.
  - rewrite length_app, Nat2Z.inj_add. simpl. f_equal. exact Hcount.
  - apply Forall_app. split; [exact Hitems | now constructor].
Qed.

Lemma settled_consumer_step c (w : World R) :
  settled NOW_ID c ->
  match consumer_step c w with
  | Suspended => Queue.items (queue c) = []
  | Handled _ _ c' _ =>
      settled NOW_ID c' /\ progress c' = progress c
      /\ exists item, Queue.items (queue c) = item :: Queue.items (queue c')
  | Died _ _ _ => False
  end.
Proof.
  intros [Hcount Hitems].
  destruct (Queue.items (queue c)) as [|item rest] eqn:Eitems.
  - unfold consumer_step, Queue.get. now rewrite Eitems.
  - assert (Hok : queue_ok (queue c)) by (unfold queue_ok; lia).
    rewrite (consumer_step_front c w item rest Eitems Hok).
    destruct (consumer_try item _) as [[calls caught] w1].
    split; [| split; [reflexivity | now exists item]].
    unfold settled, Queue.qsize in *. simpl. rewrite Eitems in Hcount.
    simpl length in Hcount. split; [lia |].
    now apply Forall_cons_iff in Hitems.
Qed.

Lemma run_settled schedule done c (w : World R) :
  settled NOW_ID c ->
  exists done' c' w',
    run NOW_ID schedule (done, c, w) = Some (done', c', w')
    /\ settled NOW_ID c'.
Proof.
  revert done c w.
  induction schedule as [|[pair|] schedule IH]; intros done c w Hs;
    cbn [run].
  - now exists done, c, w.
  - pose proof (settled_producer_step pair done c w Hs) as Hs'.
    destruct (producer_step NOW_ID pair (done, c, w)) as [[d1 c1] w1].
    now apply IH.
  - pose proof (settled_consumer_step c w Hs) as Hc.
    destruct (consumer_step c w) as [|calls caught c1 w1|e c1 w1].
    + now apply IH.
    + apply IH. tauto.
    + destruct Hc.
Qed.

End ScheduleFacts.

(** X9: from a crawler as [__init__] makes it, through any sequence of producer
    steps and consumer turns and whatever the hooks do, the consumer never
    leaves its loop: [task_done] is never called once too often, so it never
    raises.  Between steps the count of unfinished tasks is the size of the
    queue, and every queued item is the drained sentinel without events or
    a page with at least one event and its greatest ID. *)
Theorem consumer_never_dies :
  forall (Source Event R : Type) (H : Hooks Source Event R) (NOW_ID : Z)
         (config : Config) (schedule : list (Action Source)) (w : World R),
  exists done c' w',
    run NOW_ID schedule (false, new_crawler config, w) = Some (done, c', w')
    /\ Queue.unfinished_tasks (queue c') = Queue.qsize (queue c')
    /\ Forall (item_ok NOW_ID) (Queue.items (queue c')).
Proof.
  intros. apply run_settled. split; [reflexivity | constructor].
Qed.

(** X10: the consumer takes the items in the order they were queued: [n] turns
    remove the first [n] items, or all of them, and nothing else, whether
    the turns end in a commit or in a caught exception; the progress
    mapping is not touched. *)
Theorem consumer_loop_is_fifo :
  forall (Source Event R : Type) (H : Hooks Source Event R) (n : nat)
         (c : Crawler Source Event) (w : World R),
    queue_ok (queue c) ->
    Queue.items (queue (fst (consumer_loop n c w)))
      = skipn n (Queue.items (queue c))
    /\ progress (fst (consumer_loop n c w)) = progress c
    /\ queue_ok (queue (fst (consumer_loop n c w))).
Proof.
  intros Source Event R H n. induction n as [|n IH]; intros c w Hok.
  - simpl. auto.
  - cbn [consumer_loop].
    destruct (Queue.items (queue c)) as [|item rest] eqn:Eitems.
    + unfold consumer_step, Queue.get. rewrite Eitems. simpl.
      rewrite Eitems. auto.
    + rewrite (consumer_step_front c w item rest Eitems Hok).
      destruct (consumer_try item _) as [[calls caught] w1].
      match goal with
      | |- context [consumer_loop n ?c1 w1] =>
          assert (Hok1 : queue_ok (queue c1))
      end.
      { unfold queue_ok, Queue.qsize in *. simpl. rewrite Eitems in Hok.
        simpl length in Hok. lia. }
      destruct (IH _ w1 Hok1) as (Hi & Hp & Hq).
      rewrite Hi, Hp. simpl. auto.
Qed.

Lemma consumer_loop_is_fifo_witness :
  let hooks := HistoryCrawler.hooks (H := Remote.discord) Demo.config in
  queue_ok (queue Demo.backlog)
  /\ Queue.items (queue (fst (@consumer_loop _ _ _ hooks 1 Demo.backlog
                                 Demo.failing_world)))
     = [(Demo.random, None, Demo.NOW_ID)].
Proof.
  cbv zeta.
  assert (Hok : queue_ok (queue Demo.backlog)) by (vm_compute; discriminate).
  split; [exact Hok |].
  exact (proj1 (consumer_loop_is_fifo Channel Message Remote.t
           (HistoryCrawler.hooks (H := Remote.discord) Demo.config) 1
           Demo.backlog Demo.failing_world Hok)).
Defined.

(** X8: a round only adds to the back of the queue: what was queued stays in
    front, in order, and what is added is at most one item per source of
    the snapshot, in the order of the snapshot, each as the producer makes
    them. *)
Theorem producer_round_appends_in_order :
  forall (Source Event R : Type) (H : Hooks Source Event R) (NOW_ID : Z)
         (config : Config) (c : Crawler Source Event) (w : World R),
  exists added,
    Queue.items (queue (snd (fst (producer_round NOW_ID config c w))))
      = Queue.items (queue c) ++ added
    /\ sublist (map (fun item : Item Source Event => fst (fst item)) added)
               (map fst (progress c))
    /\ Forall (item_ok NOW_ID) added.
Proof.
  intros Source Event R H NOW_ID config c w. unfold producer_round.
  assert (Hfold : forall pairs done c0 w0,
    exists added,
      Queue.items (queue (snd (fst
        (fold_left (fun st pair => producer_step NOW_ID pair st) pairs
           (done, c0, w0)))))
        = Queue.items (queue c0) ++ added
      /\ sublist (map (fun item : Item Source Event => fst (fst item)) added)
                 (map fst pairs)
      /\ Forall (item_ok NOW_ID) added).
  { induction pairs as [|pair pairs IH]; intros done c0 w0; cbn [fold_left].
    - exists []. rewrite app_nil_r. repeat split; constructor.
    - pose proof (producer_step_effect NOW_ID pair done c0 w0) as Heff.
      destruct (producer_step NOW_ID pair (done, c0, w0)) as [[d1 c1] w1].
      cbv zeta in Heff. simpl in Heff.
      destruct (IH d1 c1 w1) as (added & Hitems & Hsub & Hall).
      destruct Heff as [-> | (events & last_id & Hitem & _ & Hq)].
      + exists added. split; [exact Hitems |]. split; [| exact Hall].
        simpl. now apply sublist_cons.
      + exists ((fst pair, events, last_id) :: added).
        split; [| split].
        * rewrite Hitems, Hq. unfold Queue.put. simpl.
          now rewrite <- app_assoc.
        * simpl. now apply sublist_skip.
        * now constructor. }
  destruct (Hfold (progress c) false c w) as (added & Hitems & Hsub & Hall).
  exists added.
  destruct (fold_left _ (progress c) (false, c, w)) as [[done c1] w1].
  simpl in Hitems. destruct done; simpl; auto.
Qed.

(** ** Further properties of [HistoryCrawler] *)

Section HistoryWrite.
Context {R : Type} `{Discord R}.

Lemma inserted_messages_app t1 t2 :
  inserted_messages (t1 ++ t2) = inserted_messages t1 ++ inserted_messages t2.
Proof. unfold inserted_messages. apply flat_map_app. Qed.

Lemma inserted_reactions_app t1 t2 :
  inserted_reactions (t1 ++ t2)
  = inserted_reactions t1 ++ inserted_reactions t2.
Proof. unfold inserted_reactions. apply flat_map_app. Qed.

Lemma gained_nothing trans : gained trans trans [] [].
Proof. exists []. now rewrite app_nil_r. Qed.

Lemma gained_trans t1 t2 t3 ms1 ms2 rs1 rs2 :
  gained t1 t2 ms1 rs1 -> gained t2 t3 ms2 rs2 ->
  gained t1 t3 (ms1 ++ ms2) (rs1 ++ rs2).
Proof.
  intros (a1 & -> & Hm1 & Hr1 & Hc1) (a2 & -> & Hm2 & Hr2 & Hc2).
  exists (a1 ++ a2). rewrite app_assoc. split; [reflexivity |].
  rewrite inserted_messages_app, inserted_reactions_app, forallb_app.
  rewrite Hm1, Hm2, Hr1, Hr2, Hc1, Hc2. auto.
Qed.

Lemma write_reaction_gains trans reaction (w w' : World R) trans' :
  HistoryCrawler.write_reaction trans reaction w = (Ok trans', w') ->
  gained trans trans' [] [reaction].
Proof.
  unfold HistoryCrawler.write_reaction, upsert_emoji, insert_reaction.
  run_monad. unfold Sql.execute.
  destruct (reaction_users reaction (remote w)) as [[users|e] r'];
    [| discriminate].
  simpl. destruct (Sql.rejects (store w) _); [discriminate |].
  destruct (Sql.rejects (store w) _); [discriminate |].
  intros [= <- _].
  exists [Sql.UpsertEmoji (reaction_emoji reaction);
          Sql.InsertReaction reaction users].
  rewrite <- app_assoc. repeat split.
Qed.

Lemma write_reactions_gain reactions trans (w w' : World R) trans' :
  for_each HistoryCrawler.write_reaction reactions trans w = (Ok trans', w') ->
  gained trans trans' [] reactions.
Proof.
  revert trans w. induction reactions as [|r reactions IH]; intros trans w.
  - simpl. unfold ret. intros [= <- _]. apply gained_nothing.
  - cbn [for_each]. unfold bind at 1.
    destruct (HistoryCrawler.write_reaction trans r w) as [[t1|e] w1] eqn:E;
      [| discriminate].
    intros Hrest.
    apply (gained_trans _ _ _ [] [] [r] reactions
             (write_reaction_gains _ _ _ _ _ E) (IH _ _ Hrest)).
Qed.

Lemma write_message_gains trans message (w w' : World R) trans' :
  HistoryCrawler.write_message trans message w = (Ok trans', w') ->
  gained trans trans' [message] (message_reactions message).
Proof.
  unfold HistoryCrawler.write_message, insert_message. unfold bind at 1.
  unfold sql_execute at 1, Sql.execute.
  destruct (Sql.rejects (store w) _); [discriminate |].
  intros Hrest. apply write_reactions_gain in Hrest.
  apply (gained_trans trans (trans ++ [Sql.InsertMessage message]) trans'
           [message] [] [] (message_reactions message)); [| exact Hrest].
  exists [Sql.InsertMessage message]. repeat split.
Qed.

Lemma write_gains trans messages (w w' : World R) trans' :
  HistoryCrawler.write trans messages w = (Ok trans', w') ->
  gained trans trans' messages (page_reactions messages).
Proof.
  revert trans w. unfold HistoryCrawler.write.
  induction messages as [|m messages IH]; intros trans w.
  - simpl. unfold ret. intros [= <- _]. apply gained_nothing.
  - cbn [for_each]. unfold bind at 1.
    destruct (HistoryCrawler.write_message trans m w) as [[t1|e] w1] eqn:E;
      [| discriminate].
    intros Hrest.
    apply (gained_trans _ _ _ [m] messages (message_reactions m)
             (page_reactions messages)
             (write_message_gains _ _ _ _ _ E) (IH _ _ Hrest)).
Qed.

(** X11: a [write] that ends without an exception has executed, through
    the handle and after what was there, an insertion for every message of
    the page, once and in the order of the page, and one for every reaction
    of those messages; it has executed nothing on the cursor tables, and
    the committed tables are untouched. *)
Theorem HistoryCrawler_write_inserts_the_page trans messages
    (w w' : World R) trans' :
  HistoryCrawler.write trans messages w = (Ok trans', w') ->
  (exists added,
     trans' = trans ++ added
     /\ inserted_messages added = messages
     /\ inserted_reactions added = page_reactions messages
     /\ forallb (fun stmt => negb (touches_cursors stmt)) added = true)
  /\ store w' = store w.
Proof.
  intros Hwrite. split.
  - exact (write_gains _ _ _ _ _ Hwrite).
  - pose proof (HistoryCrawler_write_scoped trans messages w) as Hs.
    now rewrite Hwrite in Hs.
Qed.

End HistoryWrite.

Lemma HistoryCrawler_write_inserts_the_page_witness :
  exists trans' w',
    HistoryCrawler.write (H := Remote.discord) Sql.transaction
      [Demo.liked_message 500] Demo.world = (Ok trans', w')
    /\ inserted_messages trans' = [Demo.liked_message 500]
    /\ inserted_reactions trans' = [Demo.thumbs_up 500].
Proof.
  assert (Hwrite : HistoryCrawler.write (H := Remote.discord) Sql.transaction
            [Demo.liked_message 500] Demo.world
          = (Ok [Sql.InsertMessage (Demo.liked_message 500);
                 Sql.UpsertEmoji 128077;
                 Sql.InsertReaction (Demo.thumbs_up 500) [42]], Demo.world))
    by reflexivity.
  destruct (HistoryCrawler_write_inserts_the_page _ _ _ _ _ Hwrite)
    as [(added & Heq & Hm & Hr & _) _].
  eexists _, _. split; [exact Hwrite |].
  simpl in Heq. rewrite Heq. split; [exact Hm | exact Hr].
Defined.

(** ** Committed transactions *)

Lemma commit_app t1 t2 s :
  Sql.commit (t1 ++ t2) s = Sql.commit t2 (Sql.commit t1 s).
Proof. unfold Sql.commit. apply fold_left_app. Qed.

Lemma apply_keeps_messages s stmt k :
  is_Some (Sql.messages s !! k) -> is_Some (Sql.messages (Sql.apply s stmt) !! k).
Proof.
  intros Hk. destruct stmt; simpl; try exact Hk.
  apply lookup_insert_is_Some.
  destruct (decide (message_id m = k)); [now left | right; auto].
Qed.

Lemma commit_keeps_messages trans s k :
  is_Some (Sql.messages s !! k) ->
  is_Some (Sql.messages (Sql.commit trans s) !! k).
Proof.
  revert s. induction trans as [|stmt trans IH]; intros s Hk; simpl.
  - exact Hk.
  - apply IH. now apply apply_keeps_messages.
Qed.

Lemma commit_inserts_messages trans s m :
  In m (inserted_messages trans) ->
  is_Some (Sql.messages (Sql.commit trans s) !! message_id m).
Proof.
  revert s. induction trans as [|stmt trans IH]; intros s.
  - intros [].
  - unfold inserted_messages. cbn [flat_map]. fold (inserted_messages trans).
    intros Hin. apply in_app_or in Hin as [Hin | Hin].
    + cbn [Sql.commit fold_left]. apply commit_keeps_messages.
      destruct stmt; try destruct Hin.
      * subst. simpl. rewrite lookup_insert_eq. eauto.
      * contradiction.
    + cbn [Sql.commit fold_left]. now apply IH.
Qed.

Lemma commit_keeps_cursors trans s :
  forallb (fun stmt => negb (touches_cursors stmt)) trans = true ->
  Sql.channel_crawl (Sql.commit trans s) = Sql.channel_crawl s
  /\ Sql.audit_log_crawl (Sql.commit trans s) = Sql.audit_log_crawl s.
Proof.
  revert s. induction trans as [|stmt trans IH]; intros s; simpl.
  - auto.
  - intros Hall. apply andb_prop in Hall as [Hstmt Hall].
    destruct (IH (Sql.apply s stmt) Hall) as [-> ->].
    destruct stmt; try discriminate; auto.
Qed.

(** X12: a consumer turn of the history crawler on a page.  When the turn ends
    in a commit, every message of the page is in the store, the cursor of
    the channel is the cursor carried by the item (if the channel has a
    row), and the cursors of other channels and of the audit logs are as
    before.  When the turn catches an exception, the store is as before:
    no message of the page and no cursor. *)
Theorem HistoryCrawler_turn_writes_page_and_cursor_together :
  forall (R : Type) (D : Discord R) (config : Config)
         (c : Crawler Channel Message) (w : World R) (channel : Channel)
         (messages : list Message) (last_id : Z)
         (rest : list (Item Channel Message)),
    Queue.items (queue c) = (channel, Some messages, last_id) :: rest ->
    queue_ok (queue c) ->
    exists calls caught c' w',
      @consumer_step _ _ _ (HistoryCrawler.hooks config) c w
      = Handled calls caught c' w'
      /\ (caught = None ->
          (forall m, In m messages ->
                     is_Some (Sql.messages (store w') !! message_id m))
          /\ (is_Some (persisted_channel_cursor w channel) ->
              persisted_channel_cursor w' channel = Some last_id)
          /\ (forall other, channel_id other <> channel_id channel ->
                persisted_channel_cursor w' other
                = persisted_channel_cursor w other)
          /\ Sql.audit_log_crawl (store w') = Sql.audit_log_crawl (store w))
      /\ (forall e, caught = Some e -> store w' = store w).
Proof.
  intros R D config c w channel messages last_id rest Hitems Hok.
  rewrite (consumer_step_front c w _ rest Hitems Hok).
  set (w0 := snd (logger GotGroupOfEvents w)).
  assert (Hw0 : store w0 = store w) by reflexivity.
  unfold consumer_try. cbn [write update HistoryCrawler.hooks].
  destruct (HistoryCrawler.write Sql.transaction messages w0)
    as [[t1|e] w1] eqn:Ew.
  - destruct (write_gains _ _ _ _ _ Ew) as (added & Heq & Hm & _ & Hc).
    pose proof (HistoryCrawler_write_scoped Sql.transaction messages w0)
      as Hs1.
    rewrite Ew in Hs1. simpl in Hs1, Heq. subst t1.
    unfold HistoryCrawler.update, update_channel_crawl, sql_execute,
      Sql.execute.
    destruct (Sql.rejects (store w1) _).
    + eexists _, _, _, _. split; [reflexivity |].
      split; [discriminate |]. intros e _. simpl. congruence.
    + eexists _, _, _, _. split; [reflexivity |].
      split; [| discriminate]. intros _.
      destruct (commit_keeps_cursors added (store w1) Hc) as [Hcc Hac].
      unfold persisted_channel_cursor. simpl.
      rewrite commit_app. simpl. rewrite Hcc, Hac, Hs1. try rewrite Hw0.
      split; [| split; [| split; [| reflexivity]]].
      * intros m Hin.
        apply (apply_keeps_messages _
                 (Sql.UpdateChannelCrawl (channel_id channel) last_id)).
        apply commit_inserts_messages. now rewrite Hm.
      * intros [x Hx]. rewrite lookup_alter_eq, Hx. reflexivity.
      * intros other Hne. now rewrite lookup_alter_ne.
  - eexists _, _, _, _. split; [reflexivity |].
    split; [discriminate |]. intros e0 _. simpl.
    pose proof (HistoryCrawler_write_scoped Sql.transaction messages w0) as Hs.
    rewrite Ew in Hs. simpl in Hs. congruence.
Qed.

Lemma HistoryCrawler_turn_writes_page_and_cursor_together_witness :
  Queue.items (queue Demo.backlog)
    = [(Demo.general, Some [Demo.liked_message 500], Z.shiftl 500 22);
       (Demo.random, None, Demo.NOW_ID)]
  /\ queue_ok (queue Demo.backlog)
  /\ exists calls caught c' w',
       @consumer_step _ _ _
         (HistoryCrawler.hooks (H := Remote.discord) Demo.config)
         Demo.backlog Demo.world = Handled calls caught c' w'
       /\ (caught = None ->
           persisted_channel_cursor w' Demo.general = Some (Z.shiftl 500 22)).
Proof.
  assert (Hitems : Queue.items (queue Demo.backlog)
    = [(Demo.general, Some [Demo.liked_message 500], Z.shiftl 500 22);
       (Demo.random, None, Demo.NOW_ID)]) by reflexivity.
  assert (Hok : queue_ok (queue Demo.backlog)) by (vm_compute; discriminate).
  split; [exact Hitems |]. split; [exact Hok |].
  destruct (HistoryCrawler_turn_writes_page_and_cursor_together Remote.t
              Remote.discord Demo.config Demo.backlog Demo.world _ _ _ _
              Hitems Hok)
    as (calls & caught & c' & w' & Hstep & Hcommit & _).
  exists calls, caught, c', w'. split; [exact Hstep |].
  intros Hnone. apply (Hcommit Hnone). vm_compute. eauto.
Defined.

(** ** [HistoryCrawler.init] *)

Lemma dict_get_set_channel (channel k : Channel) (v : option Z)
    (d : list (Channel * option Z)) :
  Dict.get channel_eqb k (Dict.set channel_eqb channel v d)
  = if channel_eqb channel k then Some v else Dict.get channel_eqb k d.
Proof.
  destruct (channel_eqb channel k) eqn:E.
  - induction d as [|[k' v'] d IH]; simpl.
    + now rewrite E.
    + destruct (channel_eqb k' channel) eqn:Ek; simpl.
      * assert (Hk : channel_eqb k' k = true).
        { unfold channel_eqb in *. apply Z.eqb_eq.
          apply Z.eqb_eq in Ek, E. congruence. }
        now rewrite Hk.
      * assert (Hk : channel_eqb k' k = false).
        { unfold channel_eqb in *. apply Z.eqb_neq.
          apply Z.eqb_neq in Ek. apply Z.eqb_eq in E. congruence. }
        now rewrite Hk.
  - apply dict_get_set_other; [apply channel_eqb_euclidean | exact E].
Qed.

Section HistoryInit.
Context {R : Type} `{Discord R}.
Variable config : Config.

(** A loop whose body leaves the world alone and keeps [I]. *)
Lemma for_each_invariant {A S} (I : S -> Prop)
    (body : S -> A -> M (World R) S) (l : list A) (w : World R) :
  (forall s x, snd (body s x w) = w) ->
  (forall s x s', I s -> fst (body s x w) = Ok s' -> I s') ->
  forall s,
    snd (for_each body l s w) = w
    /\ (forall s', I s -> fst (for_each body l s w) = Ok s' -> I s').
Proof.
  intros Hworld Hinv. induction l as [|x l IH]; intros s; simpl.
  - split; [reflexivity |]. unfold ret. simpl. now intros s' Hs [= <-].
  - unfold bind. pose proof (Hworld s x) as Hw.
    pose proof (Hinv s x) as Hi.
    destruct (body s x w) as [[s1|e] w1]; simpl in *; subst w1.
    + destruct (IH s1) as [Hw' Hi']. split; [exact Hw' |].
      intros s' Hs. apply Hi'. now apply Hi.
    + split; [reflexivity | discriminate].
Qed.

Lemma init_channel_world acc channel (w : World R) :
  snd (HistoryCrawler.init_channel acc channel w) = w.
Proof.
  unfold HistoryCrawler.init_channel. destruct acc as [progress trans].
  destruct (read_message_history channel); [| reflexivity].
  unfold lookup_channel_crawl, insert_channel_crawl. run_monad.
  destruct (Sql.channel_crawl _ !! _); simpl; [reflexivity |].
  unfold Sql.execute. now destruct (Sql.rejects (store w) _).
Qed.

Lemma dict_set_readable channel v (d : list (Channel * option Z)) :
  read_message_history channel = true ->
  Forall (fun kv => read_message_history (fst kv) = true) d ->
  Forall (fun kv : Channel * option Z => read_message_history (fst kv) = true)
    (Dict.set channel_eqb channel v d).
Proof.
  intros Hc Hd. induction Hd as [|[k v'] d Hk Hd IH]; simpl.
  - now repeat constructor.
  - destruct (channel_eqb k channel); constructor; auto.
Qed.

Lemma init_channel_seeded acc channel (w : World R) acc' :
  seeded (store w) acc ->
  fst (HistoryCrawler.init_channel acc channel w) = Ok acc' ->
  seeded (store w) acc'.
Proof.
  unfold HistoryCrawler.init_channel. destruct acc as [progress trans].
  intros [Hrows Hread].
  destruct (read_message_history channel) eqn:Eperm.
  2:{ unfold ret. simpl. intros [= <-]. now split. }
  unfold lookup_channel_crawl, insert_channel_crawl. run_monad.
  destruct (Sql.channel_crawl (Sql.commit trans (store w)) !! channel_id channel)
    as [x|] eqn:Erow; simpl.
  - intros [= <-]. split; [| now apply dict_set_readable].
    simpl. intros k cursor. rewrite dict_get_set_channel.
    destruct (channel_eqb channel k) eqn:E.
    + intros [= <-]. exists x. split; [reflexivity |].
      apply Z.eqb_eq in E. now rewrite <- E.
    + apply Hrows.
  - unfold Sql.execute. destruct (Sql.rejects (store w) _); [discriminate |].
    simpl. intros [= <-]. split; [| now apply dict_set_readable].
    simpl. intros k cursor. rewrite dict_get_set_channel, commit_app. simpl.
    destruct (channel_eqb channel k) eqn:E.
    + intros [= <-]. exists 0. split; [reflexivity |].
      apply Z.eqb_eq in E. rewrite <- E. apply lookup_insert_eq.
    + intros Hget. destruct (Hrows k cursor Hget) as (l & -> & Hrow).
      exists l. split; [reflexivity |].
      rewrite lookup_insert_ne; [exact Hrow |].
      intros Heq. unfold channel_eqb in E. apply Z.eqb_neq in E. auto.
Qed.

Lemma init_guild_world acc id (w : World R) :
  snd (HistoryCrawler.init_guild acc id w) = w.
Proof.
  unfold HistoryCrawler.init_guild. run_monad.
  destruct (get_guild id (remote w)) as [guild|]; [| reflexivity].
  apply (for_each_invariant (fun _ => True)); auto.
  intros s x. apply init_channel_world.
Qed.

Lemma init_guild_seeded acc id (w : World R) acc' :
  seeded (store w) acc ->
  fst (HistoryCrawler.init_guild acc id w) = Ok acc' ->
  seeded (store w) acc'.
Proof.
  unfold HistoryCrawler.init_guild. run_monad.
  destruct (get_guild id (remote w)) as [guild|]; [| discriminate].
  intros Hs. apply (for_each_invariant (seeded (store w))); auto.
  - intros s x. apply init_channel_world.
  - intros s x s'. apply init_channel_seeded.
Qed.

(** X13: when [init] ends without an exception the mapping and the store
    agree: every tracked channel has a number for a cursor, never [None],
    and the store holds that same number for it; only channels whose
    history may be read are tracked; and nothing but the store has
    changed. *)
Theorem HistoryCrawler_init_leaves_mapping_and_store_in_step
    (w w' : World R) (progress' : HistoryCrawler.Progress) :
  HistoryCrawler.init config [] w = (Ok progress', w') ->
  in_step progress' w'
  /\ Forall (fun kv => read_message_history (fst kv) = true) progress'
  /\ remote w' = remote w
  /\ log w' = log w.
Proof.
  unfold HistoryCrawler.init, with_transaction.
  destruct (for_each_invariant (seeded (store w)) HistoryCrawler.init_guild
              (guilds config) w
              (fun s x => init_guild_world s x w)
              (fun s x s' => init_guild_seeded s x w s')
              ([], Sql.transaction)) as [Hw Hseed].
  match goal with
  | |- context [let (_, _) := ?run in _] =>
      destruct run as [[[p t]|e] w1] eqn:E
  end; [| intros [=]].
  assert (Hw1 : w1 = w) by (rewrite <- Hw; exact (eq_sym (f_equal snd E))).
  assert (Hs : seeded (store w) (p, t)).
  { apply Hseed; [| exact (f_equal fst E)].
    split; [intros ? ? [=] | constructor]. }
  subst w1. intros [= <- <-]. destruct Hs as [Hrows Hread].
  split; [| split; [exact Hread | split; reflexivity]].
  intros channel cursor Hget. apply (Hrows channel cursor Hget).
Qed.

(** X14: [init] is all or nothing: when it raises, for a guild the client does
    not know or a row the store rejects, the world is as it was, and no
    cursor row of the channels seen before the failure has been
    inserted. *)
Theorem HistoryCrawler_init_is_all_or_nothing
    (progress : HistoryCrawler.Progress) (w w' : World R) (e : exn) :
  HistoryCrawler.init config progress w = (Raise e, w') -> w' = w.
Proof.
  unfold HistoryCrawler.init, with_transaction.
  destruct (for_each_invariant (fun _ => True) HistoryCrawler.init_guild
              (guilds config) w
              (fun s x => init_guild_world s x w)
              (fun _ _ _ _ _ => I)
              (progress, Sql.transaction)) as [Hw _].
  match goal with
  | |- context [let (_, _) := ?run in _] =>
      destruct run as [[[p t]|e0] w1] eqn:E
  end; [intros [=] |].
  assert (Hw1 : w1 = w) by exact Hw.
  now intros [= _ <-].
Qed.

End HistoryInit.

Lemma HistoryCrawler_init_leaves_mapping_and_store_in_step_witness :
  let w := {| store := empty_store rejects_nothing; remote := Demo.discord;
              log := [] |} in
  exists progress' w',
    HistoryCrawler.init (H := Remote.discord) Demo.config [] w
    = (Ok progress', w')
    /\ in_step progress' w'.
Proof.
  cbv zeta.
  destruct (HistoryCrawler.init (H := Remote.discord) Demo.config []
              {| store := empty_store rejects_nothing;
                 remote := Demo.discord; log := [] |})
    as [[progress'|e] w'] eqn:E.
  - exists progress', w'. split; [reflexivity |].
    exact (proj1 (HistoryCrawler_init_leaves_mapping_and_store_in_step
                    Demo.config _ _ _ E)).
  - vm_compute in E. discriminate E.
Defined.

Lemma HistoryCrawler_init_is_all_or_nothing_witness :
  let config := {| guilds := [1; 2]; queue_size := 8; yield_delay := 1;
                   empty_source_delay := 60; batch_size := 100 |} in
  let w := {| store := empty_store rejects_nothing; remote := Demo.discord;
              log := [] |} in
  exists e w',
    HistoryCrawler.init (H := Remote.discord) config [] w = (Raise e, w')
    /\ w' = w.
Proof.
  cbv zeta.
  destruct (HistoryCrawler.init (H := Remote.discord)
              {| guilds := [1; 2]; queue_size := 8; yield_delay := 1;
                 empty_source_delay := 60; batch_size := 100 |} []
              {| store := empty_store rejects_nothing;
                 remote := Demo.discord; log := [] |})
    as [[progress'|e] w'] eqn:E.
  - vm_compute in E. discriminate E.
  - exists e, w'. split; [reflexivity |].
    exact (HistoryCrawler_init_is_all_or_nothing _ _ _ _ _ E).
Defined.

(** ** [HistoryCrawler.read] *)

(** X15: [read] resumes by time, not by ID: the cursor reaches the remote
    service only as the creation time it encodes, so two cursors of the
    same millisecond give the same answer and leave the remote service in
    the same state. *)
Theorem HistoryCrawler_read_resumes_by_creation_time :
  forall (R : Type) (D : Discord R) (config : Config) (channel : Channel)
         (a b : Z) (w : World R),
    Z.shiftr a 22 = Z.shiftr b 22 ->
    fst (HistoryCrawler.read config channel (Some a) w)
    = fst (HistoryCrawler.read config channel (Some b) w)
    /\ remote (snd (HistoryCrawler.read config channel (Some a) w))
       = remote (snd (HistoryCrawler.read config channel (Some b) w))
    /\ store (snd (HistoryCrawler.read config channel (Some a) w)) = store w.
Proof.
  intros R D config channel a b w Hms.
  unfold HistoryCrawler.read. run_monad. rewrite Hms.
  destruct (channel_history channel _ _ (remote w)) as [[[|m ms]|e] r'];
    simpl; auto.
Qed.

Lemma HistoryCrawler_read_resumes_by_creation_time_witness :
  Z.shiftr (Z.shiftl 500 22) 22 = Z.shiftr (Z.shiftl 500 22 + 9) 22
  /\ fst (HistoryCrawler.read (H := Remote.discord) Demo.config Demo.general
            (Some (Z.shiftl 500 22)) Demo.world)
     = fst (HistoryCrawler.read (H := Remote.discord) Demo.config Demo.general
              (Some (Z.shiftl 500 22 + 9)) Demo.world).
Proof.
  split; [reflexivity |].
  exact (proj1 (HistoryCrawler_read_resumes_by_creation_time Remote.t
           Remote.discord Demo.config Demo.general (Z.shiftl 500 22)
           (Z.shiftl 500 22 + 9) Demo.world eq_refl)).
Defined.

(** ** The topology hooks *)

Lemma dict_pop_absent (channel : Channel) (d : list (Channel * option Z)) :
  List.NoDup (tracked_ids d) ->
  Dict.contains channel_eqb channel (Dict.pop channel_eqb channel d) = false.
Proof.
  unfold Dict.contains. induction d as [|[k v] d IH]; simpl; [reflexivity |].
  intros Hnd. apply List.NoDup_cons_iff in Hnd as [Hk Hnd].
  destruct (channel_eqb k channel) eqn:E; simpl.
  - unfold channel_eqb in E. apply Z.eqb_eq in E.
    clear IH. induction d as [|[k' v'] d IH]; simpl; [reflexivity |].
    unfold tracked_ids in Hk. simpl in Hk.
    destruct (channel_eqb k' channel) eqn:E'.
    + unfold channel_eqb in E'. apply Z.eqb_eq in E'.
      exfalso. apply Hk. left. congruence.
    + apply IH.
      * intros Hin. apply Hk. now right.
      * now apply List.NoDup_cons_iff in Hnd.
  - rewrite E. now apply IH.
Qed.

Lemma dict_get_pop_other (channel k : Channel) (d : list (Channel * option Z)) :
  channel_eqb channel k = false ->
  Dict.get channel_eqb k (Dict.pop channel_eqb channel d)
  = Dict.get channel_eqb k d.
Proof.
  intros Hne. induction d as [|[k' v'] d IH]; simpl; [reflexivity |].
  destruct (channel_eqb k' channel) eqn:E; simpl.
  - assert (Hk : channel_eqb k' k = false).
    { unfold channel_eqb in *. apply Z.eqb_neq.
      apply Z.eqb_eq in E. apply Z.eqb_neq in Hne. congruence. }
    now rewrite Hk.
  - now rewrite IH.
Qed.

Section TopologyHooks.
Context {R : Type}.
Variable config : Config.

Lemma channel_ok_iff (channel : Channel) :
  HistoryCrawler._channel_ok config channel = true
  <-> In (channel_guild channel) (guilds config)
      /\ read_message_history channel = true.
Proof.
  unfold HistoryCrawler._channel_ok.
  destruct (existsb (Z.eqb (channel_guild channel)) (guilds config)) eqn:E.
  - apply existsb_exists in E as (g & Hin & Hg). apply Z.eqb_eq in Hg.
    subst g. tauto.
  - split; [discriminate |]. intros [Hin _].
    assert (Ht : existsb (Z.eqb (channel_guild channel)) (guilds config) = true).
    { apply existsb_exists. exists (channel_guild channel).
      split; [exact Hin | apply Z.eqb_refl]. }
    congruence.
Qed.

(** [_delete_progress] when the store takes the deletion. *)
Lemma delete_progress_ok channel progress (w : World R) :
  Sql.rejects (store w) (Sql.DeleteChannelCrawl (channel_id channel)) = false ->
  HistoryCrawler._delete_progress channel (progress, w)
  = (Ok tt,
     (Dict.pop channel_eqb channel progress,
      set_store (Sql.apply (store w)
                   (Sql.DeleteChannelCrawl (channel_id channel))) w)).
Proof.
  intros Hrej. unfold HistoryCrawler._delete_progress,
    HistoryCrawler.modify_progress, HistoryCrawler.in_world,
    with_transaction, delete_channel_crawl. run_monad.
  unfold Sql.execute. rewrite Hrej. reflexivity.
Qed.

(** X16: the creation hook leaves everything as it is, without a log line, for
    a channel of a guild that is not configured, for a channel whose
    history may not be read, and for a channel that is tracked already. *)
Theorem create_hook_skips_channel (channel : Channel)
    (progress : list (Channel * option Z)) (w : World R) :
  ~ In (channel_guild channel) (guilds config)
  \/ read_message_history channel = false
  \/ Dict.contains channel_eqb channel progress = true ->
  HistoryCrawler._channel_create_hook config channel (progress, w)
  = (Ok tt, (progress, w)).
Proof.
  intros Hskip.
  unfold HistoryCrawler._channel_create_hook, HistoryCrawler.get_progress.
  unfold bind at 1.
  assert (Htest : negb (HistoryCrawler._channel_ok config channel)
                  || Dict.contains channel_eqb channel progress = true).
  { destruct (HistoryCrawler._channel_ok config channel) eqn:Eok; simpl;
      [| reflexivity].
    apply channel_ok_iff in Eok as [Hin Hperm].
    destruct Hskip as [Hg | [Hp | Ht]];
      [contradiction | congruence | exact Ht]. }
  now rewrite Htest.
Qed.

(** X17: when the store rejects the new row, the creation hook ends with the
    exception of the store, after the channel has been entered in the
    mapping: the channel is tracked, with [None], and has no row. *)
Theorem create_hook_when_the_store_rejects (channel : Channel)
    (progress : list (Channel * option Z)) (w : World R) :
  HistoryCrawler._channel_ok config channel = true ->
  Dict.contains channel_eqb channel progress = false ->
  Sql.rejects (store w) (Sql.InsertChannelCrawl (channel_id channel) 0)
    = true ->
  HistoryCrawler._channel_create_hook config channel (progress, w)
  = (Raise StoreError,
     (progress ++ [(channel, None)],
      snd (logger (AddingChannel (channel_id channel)) w))).
Proof.
  intros Hok Hnew Hrej.
  unfold HistoryCrawler._channel_create_hook, HistoryCrawler.get_progress.
  unfold bind at 1. rewrite Hok, Hnew. cbn [negb orb].
  unfold bind at 1. unfold HistoryCrawler.in_world at 1. cbn [logger].
  cbv beta iota.
  unfold HistoryCrawler._create_progress, HistoryCrawler.modify_progress,
    HistoryCrawler.in_world, with_transaction, insert_channel_crawl.
  run_monad. unfold Sql.execute. rewrite Hrej.
  now rewrite dict_set_absent.
Qed.

(** X18: the deletion hook, for a mapping with one entry per channel and a
    store that takes the deletion: the channel is no longer tracked and has
    no row; the entries and the rows of the other channels are as
    before. *)
Theorem delete_hook_stops_tracking (channel : Channel)
    (progress : list (Channel * option Z)) (w : World R) :
  List.NoDup (tracked_ids progress) ->
  Sql.rejects (store w) (Sql.DeleteChannelCrawl (channel_id channel)) = false ->
  exists progress' w',
    HistoryCrawler._channel_delete_hook channel (progress, w)
    = (Ok tt, (progress', w'))
    /\ Dict.contains channel_eqb channel progress' = false
    /\ persisted_channel_cursor w' channel = None
    /\ (forall other, channel_id other <> channel_id channel ->
          Dict.get channel_eqb other progress'
          = Dict.get channel_eqb other progress
          /\ persisted_channel_cursor w' other
             = persisted_channel_cursor w other)
    /\ log w' = log w ++ [RemovingChannel (channel_id channel)].
Proof.
  intros Hnd Hrej. unfold HistoryCrawler._channel_delete_hook.
  unfold bind at 1. unfold HistoryCrawler.in_world at 1. cbn [logger].
  cbv beta iota. rewrite delete_progress_ok by exact Hrej.
  eexists _, _. split; [reflexivity |].
  split; [now apply dict_pop_absent |].
  unfold persisted_channel_cursor. simpl.
  split; [apply lookup_delete_eq |]. split; [| reflexivity].
  intros other Hne. split.
  - apply dict_get_pop_other. unfold channel_eqb. apply Z.eqb_neq. congruence.
  - apply lookup_delete_ne. congruence.
Qed.

(** X19: when the store rejects the deletion, the hook ends with the exception
    of the store after the channel has left the mapping: the row stays in
    the store for a channel that is no longer tracked. *)
Theorem delete_hook_when_the_store_rejects (channel : Channel)
    (progress : list (Channel * option Z)) (w : World R) :
  Sql.rejects (store w) (Sql.DeleteChannelCrawl (channel_id channel)) = true ->
  HistoryCrawler._channel_delete_hook channel (progress, w)
  = (Raise StoreError,
     (Dict.pop channel_eqb channel progress,
      snd (logger (RemovingChannel (channel_id channel)) w))).
Proof.
  intros Hrej. unfold HistoryCrawler._channel_delete_hook.
  unfold bind at 1. unfold HistoryCrawler.in_world at 1. cbn [logger].
  cbv beta iota.
  unfold HistoryCrawler._delete_progress, HistoryCrawler.modify_progress,
    HistoryCrawler.in_world, with_transaction, delete_channel_crawl.
  run_monad. unfold Sql.execute. now rewrite Hrej.
Qed.

(** X20: the update hook, for a channel that was eligible and is no longer:
    the channel leaves the mapping and its row is deleted, as in the
    deletion hook. *)
Theorem update_hook_evicts_channel (before after : Channel)
    (progress : list (Channel * option Z)) (w : World R) :
  HistoryCrawler._channel_ok config before = true ->
  HistoryCrawler._channel_ok config after = false ->
  List.NoDup (tracked_ids progress) ->
  Sql.rejects (store w) (Sql.DeleteChannelCrawl (channel_id after)) = false ->
  exists progress' w',
    HistoryCrawler._channel_update_hook config before after (progress, w)
    = (Ok tt, (progress', w'))
    /\ Dict.contains channel_eqb after progress' = false
    /\ persisted_channel_cursor w' after = None
    /\ log w' = log w ++ [UpdatingRemoving (channel_id after)].
Proof.
  intros Hb Ha Hnd Hrej. unfold HistoryCrawler._channel_update_hook.
  rewrite Hb, Ha. cbn [negb].
  unfold bind at 1. unfold HistoryCrawler.in_world at 1. cbn [logger].
  cbv beta iota. rewrite delete_progress_ok by exact Hrej.
  eexists _, _. split; [reflexivity |].
  split; [now apply dict_pop_absent |].
  unfold persisted_channel_cursor. simpl.
  split; [apply lookup_delete_eq | reflexivity].
Qed.

End TopologyHooks.

Lemma create_hook_skips_channel_witness :
  read_message_history Demo.secret = false
  /\ HistoryCrawler._channel_create_hook Demo.config Demo.secret
       (progress Demo.crawler, Demo.world)
     = (Ok tt, (progress Demo.crawler, Demo.world)).
Proof.
  split; [reflexivity |].
  apply (create_hook_skips_channel Demo.config Demo.secret).
  right. left. reflexivity.
Defined.

Lemma create_hook_when_the_store_rejects_witness :
  let w := {| store := Demo.store_with rejects_everything;
              remote := Demo.discord; log := [] |} in
  HistoryCrawler._channel_ok Demo.config Demo.secret_opened = true
  /\ Dict.contains channel_eqb Demo.secret_opened (progress Demo.crawler)
     = false
  /\ HistoryCrawler._channel_create_hook Demo.config Demo.secret_opened
       (progress Demo.crawler, w)
     = (Raise StoreError,
        (progress Demo.crawler ++ [(Demo.secret_opened, None)],
         snd (logger (AddingChannel 9) w))).
Proof.
  cbv zeta. split; [reflexivity |]. split; [reflexivity |].
  apply (create_hook_when_the_store_rejects Demo.config Demo.secret_opened);
    reflexivity.
Defined.

Lemma tracked_ids_of_the_demo : List.NoDup (tracked_ids (progress Demo.crawler)).
Proof.
  repeat constructor; simpl; intuition discriminate.
Qed.

Lemma delete_hook_stops_tracking_witness :
  List.NoDup (tracked_ids (progress Demo.crawler))
  /\ exists progress' w',
       HistoryCrawler._channel_delete_hook Demo.general
         (progress Demo.crawler, Demo.world) = (Ok tt, (progress', w'))
       /\ Dict.contains channel_eqb Demo.general progress' = false
       /\ persisted_channel_cursor w' Demo.general = None.
Proof.
  split; [exact tracked_ids_of_the_demo |].
  destruct (delete_hook_stops_tracking Demo.general (progress Demo.crawler)
              Demo.world tracked_ids_of_the_demo eq_refl)
    as (progress' & w' & Hhook & Hgone & Hrow & _).
  exists progress', w'. auto.
Defined.

Lemma delete_hook_when_the_store_rejects_witness :
  let w := {| store := Demo.store_with rejects_everything;
              remote := Demo.discord; log := [] |} in
  exists w',
    HistoryCrawler._channel_delete_hook Demo.general (progress Demo.crawler, w)
    = (Raise StoreError, ([(Demo.random, Some 0)], w'))
    /\ persisted_channel_cursor w' Demo.general = Some 0.
Proof.
  cbv zeta. eexists. split.
  - apply (delete_hook_when_the_store_rejects Demo.general). reflexivity.
  - reflexivity.
Defined.

Lemma update_hook_evicts_channel_witness :
  let progress := [(Demo.general, Some 0); (Demo.secret_opened, Some 0)] in
  HistoryCrawler._channel_ok Demo.config Demo.secret_opened = true
  /\ HistoryCrawler._channel_ok Demo.config Demo.secret = false
  /\ exists progress' w',
       HistoryCrawler._channel_update_hook Demo.config Demo.secret_opened
         Demo.secret (progress, Demo.world) = (Ok tt, (progress', w'))
       /\ Dict.contains channel_eqb Demo.secret progress' = false.
Proof.
  cbv zeta. split; [reflexivity |]. split; [reflexivity |].
  assert (Hnd : List.NoDup (tracked_ids
            [(Demo.general, Some 0); (Demo.secret_opened, Some 0)])).
  { repeat constructor; simpl; intuition discriminate. }
  destruct (update_hook_evicts_channel Demo.config Demo.secret_opened
              Demo.secret _ Demo.world eq_refl eq_refl Hnd eq_refl)
    as (progress' & w' & Hhook & Hgone & _).
  exists progress', w'. auto.
Defined.

(** ** [AuditLogCrawler.init] *)

Lemma dict_get_set_guild (guild k : Guild) (v : option Z)
    (d : list (Guild * option Z)) :
  Dict.get guild_eqb k (Dict.set guild_eqb guild v d)
  = if guild_eqb guild k then Some v else Dict.get guild_eqb k d.
Proof.
  destruct (guild_eqb guild k) eqn:E.
  - induction d as [|[k' v'] d IH]; simpl.
    + now rewrite E.
    + destruct (guild_eqb k' guild) eqn:Ek; simpl.
      * assert (Hk : guild_eqb k' k = true).
        { unfold guild_eqb in *. apply Z.eqb_eq.
          apply Z.eqb_eq in Ek, E. congruence. }
        now rewrite Hk.
      * assert (Hk : guild_eqb k' k = false).
        { unfold guild_eqb in *. apply Z.eqb_neq.
          apply Z.eqb_neq in Ek. apply Z.eqb_eq in E. congruence. }
        now rewrite Hk.
  - induction d as [|[k' v'] d IH]; simpl.
    + now rewrite E.
    + destruct (guild_eqb k' guild) eqn:Ek; simpl.
      * assert (Hk : guild_eqb k' k = false).
        { unfold guild_eqb in *. apply Z.eqb_neq.
          apply Z.eqb_eq in Ek. apply Z.eqb_neq in E. congruence. }
        now rewrite Hk.
      * destruct (guild_eqb k' k); [reflexivity | exact IH].
Qed.

Section AuditInit.
Context {R : Type} `{Discord R}.
Variable config : Config.

Lemma audit_init_guild_world acc id (w : World R) :
  snd (AuditLogCrawler.init_guild acc id w) = w.
Proof.
  unfold AuditLogCrawler.init_guild. destruct acc as [progress trans].
  unfold lookup_audit_log_crawl, insert_audit_log_crawl. run_monad.
  destruct (get_guild id (remote w)) as [guild|]; [| reflexivity].
  destruct (Sql.audit_log_crawl _ !! _); simpl; [reflexivity |].
  unfold Sql.execute. now destruct (Sql.rejects (store w) _).
Qed.

Lemma audit_init_guild_seeded acc id (w : World R) acc' :
  audit_seeded (store w) acc ->
  fst (AuditLogCrawler.init_guild acc id w) = Ok acc' ->
  audit_seeded (store w) acc'.
Proof.
  unfold AuditLogCrawler.init_guild. destruct acc as [progress trans].
  intros Hrows.
  unfold lookup_audit_log_crawl, insert_audit_log_crawl. run_monad.
  destruct (get_guild id (remote w)) as [guild|]; [| discriminate].
  destruct (Sql.audit_log_crawl (Sql.commit trans (store w)) !! guild_id guild)
    as [x|] eqn:Erow; simpl.
  - intros [= <-]. simpl. intros k cursor. simpl. rewrite dict_get_set_guild.
    destruct (guild_eqb guild k) eqn:E.
    + intros [= <-]. exists x. split; [reflexivity |].
      apply Z.eqb_eq in E. now rewrite <- E.
    + apply Hrows.
  - unfold Sql.execute. destruct (Sql.rejects (store w) _); [discriminate |].
    simpl. intros [= <-]. intros k cursor. simpl.
    rewrite dict_get_set_guild, commit_app. simpl.
    destruct (guild_eqb guild k) eqn:E.
    + intros [= <-]. exists 0. split; [reflexivity |].
      apply Z.eqb_eq in E. rewrite <- E. apply lookup_insert_eq.
    + intros Hget. destruct (Hrows k cursor Hget) as (l & -> & Hrow).
      exists l. split; [reflexivity |].
      rewrite lookup_insert_ne; [exact Hrow |].
      intros Heq. unfold guild_eqb in E. apply Z.eqb_neq in E. auto.
Qed.

(** X21: [AuditLogCrawler.init], when it ends without an exception, leaves the
    mapping and the store in step: every tracked guild has a number for a
    cursor, the one the store holds for it; and when it raises, the world
    is as it was. *)
Theorem AuditLogCrawler_init_leaves_mapping_and_store_in_step
    (w w' : World R) (r : result AuditLogCrawler.Progress) :
  AuditLogCrawler.init config [] w = (r, w') ->
  match r with
  | Ok progress' =>
      audit_in_step progress' w'
      /\ remote w' = remote w /\ log w' = log w
  | Raise _ => w' = w
  end.
Proof.
  unfold AuditLogCrawler.init, with_transaction.
  destruct (for_each_invariant (audit_seeded (store w))
              AuditLogCrawler.init_guild (guilds config) w
              (fun s x => audit_init_guild_world s x w)
              (fun s x s' => audit_init_guild_seeded s x w s')
              ([], Sql.transaction)) as [Hw Hseed].
  match goal with
  | |- context [let (_, _) := ?run in _] =>
      destruct run as [[[p t]|e] w1] eqn:E
  end.
  - assert (Hw1 : w1 = w)
      by first [exact Hw | rewrite <- Hw; exact (eq_sym (f_equal snd E))].
    assert (Hs : audit_seeded (store w) (p, t)).
    { apply Hseed; [| first [reflexivity | exact (f_equal fst E)]].
      intros ? ? [=]. }
    subst w1. intros [= <- <-].
    split; [| split; reflexivity].
    intros guild cursor Hget. apply (Hs guild cursor Hget).
  - assert (Hw1 : w1 = w)
      by first [exact Hw | rewrite <- Hw; exact (eq_sym (f_equal snd E))].
    now intros [= <- <-].
Qed.

End AuditInit.

Lemma AuditLogCrawler_init_leaves_mapping_and_store_in_step_witness :
  let w := {| store := empty_store rejects_nothing; remote := Demo.discord;
              log := [] |} in
  exists progress' w',
    AuditLogCrawler.init (H := Remote.discord) Demo.config [] w
    = (Ok progress', w')
    /\ audit_in_step progress' w'.
Proof.
  cbv zeta.
  destruct (AuditLogCrawler.init (H := Remote.discord) Demo.config []
              {| store := empty_store rejects_nothing;
                 remote := Demo.discord; log := [] |})
    as [[progress'|e] w'] eqn:E.
  - exists progress', w'. split; [reflexivity |].
    exact (proj1 (AuditLogCrawler_init_leaves_mapping_and_store_in_step
                    Demo.config _ _ _ E)).
  - vm_compute in E. discriminate E.
Defined.

(** ** Further properties of [AuditLogCrawler] *)

(** X22: [AuditLogCrawler.read] resumes by time as well: two cursors of
    the same millisecond give the same answer and leave the remote service
    in the same state; the store is not touched. *)
Theorem AuditLogCrawler_read_resumes_by_creation_time :
  forall (R : Type) (D : Discord R) (config : Config) (guild : Guild)
         (a b : Z) (w : World R),
    Z.shiftr a 22 = Z.shiftr b 22 ->
    fst (AuditLogCrawler.read config guild (Some a) w)
    = fst (AuditLogCrawler.read config guild (Some b) w)
    /\ remote (snd (AuditLogCrawler.read config guild (Some a) w))
       = remote (snd (AuditLogCrawler.read config guild (Some b) w))
    /\ store (snd (AuditLogCrawler.read config guild (Some a) w)) = store w.
Proof.
  intros R D config guild a b w Hms.
  unfold AuditLogCrawler.read. run_monad. rewrite Hms.
  destruct (guild_audit_logs guild _ _ (remote w)) as [[[|m ms]|e] r'];
    simpl; auto.
Qed.

Lemma AuditLogCrawler_read_resumes_by_creation_time_witness :
  Z.shiftr (Z.shiftl 100 22) 22 = Z.shiftr (Z.shiftl 100 22 + 3) 22
  /\ fst (AuditLogCrawler.read (H := Remote.discord) Demo.config Demo.guild
            (Some (Z.shiftl 100 22)) Demo.world)
     = fst (AuditLogCrawler.read (H := Remote.discord) Demo.config Demo.guild
              (Some (Z.shiftl 100 22 + 3)) Demo.world).
Proof.
  split; [reflexivity |].
  exact (proj1 (AuditLogCrawler_read_resumes_by_creation_time Remote.t
           Remote.discord Demo.config Demo.guild (Z.shiftl 100 22)
           (Z.shiftl 100 22 + 3) Demo.world eq_refl)).
Defined.

(** X23: a consumer turn of the audit-log crawler on the item of an empty
    read, whatever the store does with the insertions of [write]: [write]
    is not called, the cursor update is committed, and a guild that has a
    row has the carried cursor in it afterwards; the table of entries is
    as before. *)
Theorem AuditLogCrawler_drained_turn_commits_the_cursor :
  forall (R : Type) (D : Discord R) (config : Config)
         (insert_1 : AuditLogEntry -> M (World R) unit)
         (c : Crawler Guild AuditLogEntry) (w : World R) (guild : Guild)
         (last_id : Z) (rest : list (Item Guild AuditLogEntry)),
    Queue.items (queue c) = (guild, None, last_id) :: rest ->
    queue_ok (queue c) ->
    Sql.rejects (store w) (Sql.UpdateAuditLogCrawl (guild_id guild) last_id)
      = false ->
    exists c' w',
      @consumer_step _ _ _ (AuditLogCrawler.hooks config insert_1) c w
      = Handled [CallTransaction; CallUpdate guild last_id; CallCommit;
                 CallTaskDone] None c' w'
      /\ (is_Some (Sql.audit_log_crawl (store w) !! guild_id guild) ->
          Sql.audit_log_crawl (store w') !! guild_id guild = Some last_id)
      /\ (forall other, other <> guild_id guild ->
            Sql.audit_log_crawl (store w') !! other
            = Sql.audit_log_crawl (store w) !! other)
      /\ Sql.audit_log (store w') = Sql.audit_log (store w)
      /\ Queue.items (queue c') = rest.
Proof.
  intros R D config insert_1 c w guild last_id rest Hitems Hok Hrej.
  rewrite (consumer_step_front c w _ rest Hitems Hok).
  unfold consumer_try. cbn [update AuditLogCrawler.hooks].
  unfold AuditLogCrawler.update, update_audit_log_crawl, sql_execute,
    Sql.execute.
  cbn [logger snd store]. rewrite Hrej.
  eexists _, _. split; [reflexivity |]. simpl.
  split; [| split; [| split; reflexivity]].
  - intros [x Hx]. rewrite lookup_alter_eq, Hx. reflexivity.
  - intros other Hne. now rewrite lookup_alter_ne.
Qed.

Lemma AuditLogCrawler_drained_turn_commits_the_cursor_witness :
  let c := {| progress := [(Demo.guild, Some Demo.NOW_ID)];
              queue := Queue.put (Demo.guild, None, Demo.NOW_ID)
                         (Queue.create 8) |} in
  queue_ok (queue c)
  /\ exists c' w',
       @consumer_step _ _ _
         (AuditLogCrawler.hooks (H := Remote.discord) Demo.config
            AuditLogCrawler.missing_argument) c Demo.world
       = Handled [CallTransaction; CallUpdate Demo.guild Demo.NOW_ID;
                  CallCommit; CallTaskDone] None c' w'
       /\ Sql.audit_log_crawl (store w') !! 1 = Some Demo.NOW_ID.
Proof.
  cbv zeta.
  assert (Hok : queue_ok (Queue.put (Demo.guild, @None (list AuditLogEntry),
                                     Demo.NOW_ID) (Queue.create 8)))
    by (vm_compute; discriminate).
  split; [exact Hok |].
  destruct (AuditLogCrawler_drained_turn_commits_the_cursor Remote.t
              Remote.discord Demo.config AuditLogCrawler.missing_argument
              {| progress := [(Demo.guild, Some Demo.NOW_ID)];
                 queue := Queue.put (Demo.guild, None, Demo.NOW_ID)
                            (Queue.create 8) |}
              Demo.world Demo.guild Demo.NOW_ID [] eq_refl Hok eq_refl)
    as (c' & w' & Hstep & Hrow & _).
  exists c', w'. split; [exact Hstep |].
  apply Hrow. vm_compute. eauto.
Defined.
